(** * SmartDoc RAG: text chunking and embedding aggregation

    A shallow embedding of [server/services/aiService.js]:
    [splitTextIntoChunks], [averageEmbeddings] and [generateEmbeddings],
    together with the properties the specification states about them
    (Part II); further properties of these three functions (Part III);
    the chat functions of the same service, the two routes of the server
    that call it, and the bulk route of the SmartKnowledge Agent
    (Part IV). *)

From Stdlib Require Import ZArith NArith List Bool Lia Floats Uint63 String Ascii.
From Stdlib Require Import DecimalString.
From Stdlib Require QArith Qcanon.
From stdpp Require Import base list gmap.
Import ListNotations.

Local Open Scope Z_scope.

(** * Part I: the program *)

(** ** JavaScript strings

    A JavaScript string is a finite sequence of UTF-16 code units, and
    [length], [+], [trim] and [split] all work on code units. *)

Module JSString.

Abbreviation char := N (only parsing).
Abbreviation jsstring := (list N) (only parsing).

(** A string literal, one code unit per character. *)
Definition str (s : String.string) : jsstring :=
  List.map N_of_ascii (list_ascii_of_string s).

Definition space : char := 32%N.
Definition full_stop : char := 46%N.

(** Truthiness of a string: every string but the empty one. *)
Definition truthy (s : jsstring) : bool :=
  match s with [] => false | _ :: _ => true end.

(** The code units [String.prototype.trim] strips: ECMAScript's WhiteSpace
    (TAB, VT, FF, SP, NBSP, ZWNBSP and the category Zs) and LineTerminator
    (LF, CR, LS, PS). *)
Definition isWhiteSpace (c : char) : bool :=
  ((9 <=? c) && (c <=? 13) || (c =? 32) || (c =? 160) || (c =? 5760)
   || (8192 <=? c) && (c <=? 8202) || (c =? 8232) || (c =? 8233)
   || (c =? 8239) || (c =? 8287) || (c =? 12288) || (c =? 65279))%N.

Fixpoint trimStart (s : jsstring) : jsstring :=
  match s with
  | [] => []
  | c :: s' => if isWhiteSpace c then trimStart s' else s
  end.

Definition trimEnd (s : jsstring) : jsstring := rev (trimStart (rev s)).

Definition trim (s : jsstring) : jsstring := trimEnd (trimStart s).

(** The character class of the regular expression [/[.!?]+/]. *)
Definition isTerminator (c : char) : bool :=
  ((c =? 46) || (c =? 33) || (c =? 63))%N.

(** [s.split(/[.!?]+/)]: the pieces of [s] between the maximal runs of
    terminators.  The expression never matches the empty string, so the
    result has one more piece than there are runs; a run at either end of
    [s] leaves an empty piece there, and the empty string gives one empty
    piece.  A terminator that is followed by another one is inside a run
    and is skipped; the last terminator of a run closes the piece. *)
Fixpoint splitSentences (s : jsstring) : list jsstring :=
  match s with
  | [] => [[]]
  | c :: s' =>
      if isTerminator c then
        match s' with
        | c' :: _ => if isTerminator c' then splitSentences s'
                     else [] :: splitSentences s'
        | [] => [] :: splitSentences s'
        end
      else
        match splitSentences s' with
        | piece :: rest => (c :: piece) :: rest
        | [] => [[c]]
        end
  end.

(** [s.split(' ')]: the pieces of [s] between single spaces. *)
Fixpoint splitSpaces (s : jsstring) : list jsstring :=
  match s with
  | [] => [[]]
  | c :: s' =>
      if (c =? space)%N then [] :: splitSpaces s'
      else
        match splitSpaces s' with
        | word :: rest => (c :: word) :: rest
        | [] => [[c]]
        end
  end.

End JSString.

(** ** [splitTextIntoChunks] *)

Module Chunking.
Import JSString.

(** [s.length > maxChunkSize], the test both loops use. *)
Definition exceeds (s : jsstring) (maxChunkSize : Z) : bool :=
  Z.of_nat (length s) >? maxChunkSize.

(** The body of [for (const word of words)]: the state is the array
    [chunks] and the buffer [wordChunk].  A word that does not fit while
    the buffer is empty changes nothing. *)
Definition wordStep (maxChunkSize : Z) (st : list jsstring * jsstring)
    (word : jsstring) : list jsstring * jsstring :=
  let '(chunks, wordChunk) := st in
  if exceeds (wordChunk ++ [space] ++ word) maxChunkSize then
    if truthy wordChunk then (chunks ++ [trim wordChunk], word)
    else (chunks, wordChunk)
  else (chunks, wordChunk ++ [space] ++ word).

(** The branch for a sentence that is too long while [currentChunk] is
    empty: split by words, then flush the word buffer. *)
Definition splitByWords (maxChunkSize : Z) (chunks : list jsstring)
    (sentence : jsstring) : list jsstring :=
  let words := splitSpaces sentence in
  let '(chunks', wordChunk) :=
    fold_left (wordStep maxChunkSize) words (chunks, []) in
  if truthy wordChunk then chunks' ++ [trim wordChunk] else chunks'.

(** The body of [for (const sentence of sentences)]: the state is
    [chunks] and [currentChunk]. *)
Definition sentenceStep (maxChunkSize : Z) (st : list jsstring * jsstring)
    (sentence : jsstring) : list jsstring * jsstring :=
  let '(chunks, currentChunk) := st in
  if exceeds (currentChunk ++ sentence) maxChunkSize then
    if truthy currentChunk then (chunks ++ [trim currentChunk], sentence)
    else (splitByWords maxChunkSize chunks sentence, currentChunk)
  else (chunks, currentChunk ++ sentence ++ [full_stop]).

Definition splitTextIntoChunks (text : jsstring) (maxChunkSize : Z)
    : list jsstring :=
  let sentences := splitSentences text in
  let '(chunks, currentChunk) :=
    fold_left (sentenceStep maxChunkSize) sentences ([], []) in
  let chunks :=
    if truthy currentChunk then chunks ++ [trim currentChunk] else chunks in
  List.filter (fun chunk => (0 <? length chunk)%nat) chunks.

(** The default value of the parameter [maxChunkSize]. *)
Definition defaultMaxChunkSize : Z := 8000.

(** Concatenation of the emitted chunks, as one string. *)
Definition rejoin (chunks : list jsstring) : jsstring := concat chunks.

Definition hasWhiteSpace (s : jsstring) : bool := existsb isWhiteSpace s.

End Chunking.

(** ** JavaScript numbers

    [averageEmbeddings] uses four things of its numbers: the constant [0],
    the operators [+] and [/], and the conversion of an array length to a
    number.  Reading past the end of an array gives [undefined], which [+]
    converts to NaN. *)

Class Arith (num : Type) : Type := {
  zero : num;
  nan : num;
  add : num -> num -> num;
  div : num -> num -> num;
  ofLength : nat -> num
}.

(** The Number type of the language: IEEE 754 binary64.  An array has fewer
    than 2^32 elements, so its length converts exactly. *)
#[export] Instance float_Arith : Arith float := {
  zero := 0%float;
  nan := PrimFloat.nan;
  add := PrimFloat.add;
  div := PrimFloat.div;
  ofLength n := PrimFloat.of_uint63 (Uint63.of_Z (Z.of_nat n))
}.

(** Exact rational arithmetic, where no operation rounds.  It has no NaN;
    the reading of a missing element is given the value [0]. *)
#[export] Instance Qc_Arith : Arith Qcanon.Qc := {
  zero := Qcanon.Q2Qc (QArith_base.inject_Z 0);
  nan := Qcanon.Q2Qc (QArith_base.inject_Z 0);
  add := Qcanon.Qcplus;
  div := Qcanon.Qcdiv;
  ofLength n := Qcanon.Q2Qc (QArith_base.inject_Z (Z.of_nat n))
}.


(** ** The heap of arrays

    Arrays are objects: a variable holds a reference, and two references
    may name the same array.  The heap maps references to the arrays of
    numbers they name.  A computation takes the heap and gives a value and
    the heap after it, or [None] when it dereferences a reference that is
    not allocated or writes outside the bounds of an array; the code below
    does neither (see [averageEmbeddings_runs]). *)

Module Heap.
Section Heap.
Context {num : Type} `{Arith num}.

Definition M (A : Type) : Type :=
  gmap positive (list num) -> option (A * gmap positive (list num)).

Definition ret {A} (a : A) : M A := fun h => Some (a, h).

Definition bind {A B} (m : M A) (k : A -> M B) : M B :=
  fun h => match m h with
           | Some (a, h') => k a h'
           | None => None
           end.

(** An array literal or [new Array]: a fresh reference. *)
Definition alloc (elements : list num) : M positive :=
  fun h => let r := fresh (dom h) in Some (r, <[r := elements]> h).

(** [array.length] *)
Definition arrayLength (array : positive) : M nat :=
  fun h => match h !! array with
           | Some elements => Some (length elements, h)
           | None => None
           end.

(** [array[i]]: the element, or [undefined] past the end. *)
Definition read (array : positive) (i : nat) : M (option num) :=
  fun h => match h !! array with
           | Some elements => Some (elements !! i, h)
           | None => None
           end.

(** [array[i] = x], for [i] within the bounds of the array. *)
Definition write (array : positive) (i : nat) (x : num) : M unit :=
  fun h => match h !! array with
           | Some elements =>
               if decide (i < length elements)%nat
               then Some (tt, <[array := <[i := x]> elements]> h)
               else None
           | None => None
           end.

(** The conversion [+] and [/] apply to an operand. *)
Definition toNumber (v : option num) : num :=
  match v with Some x => x | None => nan end.

(** [for (let i = start; i < start + count; i++) body(i)] *)
Fixpoint forRange (start count : nat) (body : nat -> M unit) : M unit :=
  match count with
  | O => ret tt
  | S count' => bind (body start) (fun _ => forRange (S start) count' body)
  end.

(** [for (const x of xs) body(x)] *)
Fixpoint forOf {A} (xs : list A) (body : A -> M unit) : M unit :=
  match xs with
  | [] => ret tt
  | x :: xs' => bind (body x) (fun _ => forOf xs' body)
  end.

End Heap.
End Heap.

Notation "'let*' x ':=' m 'in' k" := (Heap.bind m (fun x => k))
  (at level 10, x name, m at level 100, k at level 200).
Notation "m ';;' k" := (Heap.bind m (fun _ => k))
  (at level 100, k at level 200, right associativity).


(** ** [averageEmbeddings] *)

Module Averaging.
Import Heap.
Section Averaging.
Context {num : Type} `{Arith num}.

Definition averageEmbeddings (embeddings : list positive) : M positive :=
  match embeddings with
  | [] => alloc []
  | [only] => ret only
  | first :: _ :: _ =>
      let* dimensions := arrayLength first in
      let* averaged := alloc (replicate dimensions zero) in
      forOf embeddings (fun embedding =>
        forRange 0 dimensions (fun i =>
          let* a := read averaged i in
          let* x := read embedding i in
          write averaged i (add (toNumber a) (toNumber x))));;
      forRange 0 dimensions (fun i =>
        let* a := read averaged i in
        write averaged i (div (toNumber a) (ofLength (length embeddings))));;
      ret averaged
  end.

(** The vector a run returns: the array its result names in the heap it
    leaves. *)
Definition returned (run : option (positive * gmap positive (list num)))
    : option (list num) :=
  match run with
  | Some (r, h) => h !! r
  | None => None
  end.

(** The components of the vectors at index [i], as [+] reads them. *)
Definition column (i : nat) (vectors : list (list num)) : list num :=
  (fun v => toNumber (v !! i)) <$> vectors.

(** The sum the first loop accumulates, from [0], in the order of the
    input. *)
Definition total (xs : list num) : num := fold_left add xs zero.

Definition mean (vectors : list (list num)) (i : nat) : num :=
  div (total (column i vectors)) (ofLength (length vectors)).

(** The vector of the means, with as many components as the first input
    vector has. *)
Definition meanVector (vectors : list (list num)) : list num :=
  match vectors with
  | [] => []
  | first :: _ => mean vectors <$> seq 0 (length first)
  end.

End Averaging.
End Averaging.

(** ** [generateEmbeddings] *)

Module Service.
Import JSString Chunking Heap Averaging.

(** What the function returns: a reference to an array, or [undefined]
    when [embeddings[0]] is read from an empty array. *)
Inductive value : Type :=
  | Undefined
  | Ref (r : positive).

(** How a call completes: with a value, or with the [Error] it throws. *)
Inductive completion : Type :=
  | Return (v : value)
  | Throw (message : list N).

Section Service.
Context {num : Type} `{Arith num}.

(** The embedding provider behind [this.openai.embeddings.create]: from
    the chunk and its own state it gives the vector
    [response.data[0].embedding], or the message of the error the awaited
    call throws. *)
Variable provider : Type.
Variable create : list N -> provider -> (list N + list num) * provider.

(** [for (const chunk of chunks)]: one awaited call per chunk, in order;
    each vector received is a new array pushed on [embeddings].  An error
    leaves the loop. *)
Fixpoint embedChunks (chunks : list (list N)) (embeddings : list positive)
    (h : gmap positive (list num)) (p : provider)
    : (list N + list positive) * gmap positive (list num) * provider :=
  match chunks with
  | [] => (inr embeddings, h, p)
  | chunk :: chunks' =>
      match create chunk p with
      | (inl message, p') => (inl message, h, p')
      | (inr embedding, p') =>
          let r := fresh (dom h) in
          embedChunks chunks' (embeddings ++ [r]) (<[r := embedding]> h) p'
      end
  end.

(** The [catch] clause: every error is thrown again under this prefix.
    (It is also logged, which the model leaves out.) *)
Definition failed (message : list N) : completion :=
  Throw (str "Failed to generate embeddings: " ++ message).

Definition generateEmbeddings (text : list N)
    (h : gmap positive (list num)) (p : provider)
    : option (completion * gmap positive (list num) * provider) :=
  if negb (truthy text) || (length (trim text) =? 0)%nat then
    Some (failed (str "Text cannot be empty"), h, p)
  else
    let chunks := splitTextIntoChunks text 8000 in
    match embedChunks chunks [] h p with
    | (inl message, h', p') => Some (failed message, h', p')
    | (inr embeddings, h', p') =>
        if (1 <? length embeddings)%nat then
          match averageEmbeddings embeddings h' with
          | Some (r, h'') => Some (Return (Ref r), h'', p')
          | None => None
          end
        else
          Some (Return (match embeddings !! 0%nat with
                        | Some r => Ref r
                        | None => Undefined
                        end), h', p')
    end.

End Service.

End Service.

(** ** The chat functions of the service

    [generateResponse], [extractTopicsAndEntities] and [generateSummary]
    build a prompt, send it to the chat provider in one awaited call and
    hand back what it answers. *)

Module Chat.
Import JSString.

Definition line_feed : char := 10%N.

(** The decimal digits of an integer, which is how a template literal
    prints the index of an array element or the length of an array. *)
Definition decimal (n : Z) : jsstring :=
  str (NilZero.string_of_int (Z.to_int n)).

(** [s.substring(indexStart, indexEnd)] for two non-negative integers:
    both are clamped to the length, and swapped when the first is the
    greater. *)
Definition substring (s : jsstring) (indexStart indexEnd : N) : jsstring :=
  let start := Nat.min (N.to_nat indexStart) (length s) in
  let finish := Nat.min (N.to_nat indexEnd) (length s) in
  take (Nat.max start finish - Nat.min start finish)%nat
    (drop (Nat.min start finish) s).

(** [parts.join(separator)] *)
Fixpoint join (separator : jsstring) (parts : list jsstring) : jsstring :=
  match parts with
  | [] => []
  | part :: parts' =>
      match parts' with
      | [] => part
      | _ :: _ => part ++ separator ++ join separator parts'
      end
  end.

(** The argument of [this.openai.chat.completions.create]; a message is
    its role and its content. *)
Record request : Type := {
  model : jsstring;
  messages : list (jsstring * jsstring);
  max_tokens : float;
  temperature : float
}.

(** How a call completes: with a value, or with the [Error] it throws. *)
Inductive outcome (A : Type) : Type :=
  | Returns (a : A)
  | Throws (message : jsstring).
Arguments Returns {A} a.
Arguments Throws {A} message.

(** What [extractTopicsAndEntities] gives: the value [JSON.parse] made of
    the answer, or the object
    [{ topics: [], entities: [], themes: [], category: 'unknown' }]. *)
Inductive analysis (json : Type) : Type :=
  | parsed (value : json)
  | unknown.
Arguments parsed {json} value.
Arguments unknown {json}.

Section Chat.

(** The chat provider behind [this.openai.chat.completions.create]: from
    the request and its own state it gives the text
    [response.choices[0].message.content], or the message of the error the
    awaited call throws. *)
Variable provider : Type.
Variable complete : request -> provider -> (jsstring + jsstring) * provider.

(** A search result, and the text that [${result.content}] prints. *)
Variable result : Type.
Variable content : result -> jsstring.

(** [JSON.parse], which throws on a text that is not JSON. *)
Variable json : Type.
Variable JSON_parse : jsstring -> option json.

(** Two built-ins of the language on its numbers: [Math.ceil], and the
    conversion of a number to the text a template literal prints for it
    (the shortest digits that read back as the number, in exponent form
    from 10^21 on). *)
Variable Math_ceil : float -> float.
Variable numberToString : float -> jsstring.

(** The constant [systemPrompt] of [generateResponse]. *)
Definition systemPrompt : jsstring :=
  str "You are SmartDoc RAG, an AI assistant specialized in document analysis and knowledge retrieval. "
  ++ [line_feed]
  ++ str "Your task is to provide accurate, helpful responses based on the provided document context."
  ++ [line_feed; line_feed]
  ++ str "Guidelines:" ++ [line_feed]
  ++ str "- Use only information from the provided documents" ++ [line_feed]
  ++ str "- If the answer isn't in the documents, clearly state that"
  ++ [line_feed]
  ++ str "- Provide specific references to document sections when possible"
  ++ [line_feed]
  ++ str "- Be concise but comprehensive" ++ [line_feed]
  ++ str "- Maintain a professional and helpful tone".

(** The documents, numbered from 1 and separated by an empty line. *)
Definition context (searchResults : list result) : jsstring :=
  join [line_feed; line_feed]
    (imap (fun index result =>
             str "Document " ++ decimal (Z.of_nat index + 1) ++ str ": "
             ++ content result)
       searchResults).

Definition userPrompt (query : jsstring) (searchResults : list result)
    : jsstring :=
  str "Query: " ++ query ++ [line_feed; line_feed]
  ++ str "Relevant Documents:" ++ [line_feed]
  ++ context searchResults ++ [line_feed; line_feed]
  ++ str "Please provide a comprehensive answer based on the above documents.".

(** The [catch] clause throws every error again under a prefix.  (It is
    also logged, which the model leaves out, here and below.) *)
Definition responseRequest (query : jsstring) (searchResults : list result)
    : request :=
  {| model := str "gpt-4";
     messages := [(str "system", systemPrompt);
                  (str "user", userPrompt query searchResults)];
     max_tokens := 1000%float;
     temperature := 0x1.3333333333333p-2 |}.

Definition generateResponse (query : jsstring) (searchResults : list result)
    (p : provider) : outcome jsstring * provider :=
  match complete (responseRequest query searchResults) p with
  | (inr answer, p') => (Returns answer, p')
  | (inl message, p') =>
      (Throws (str "Failed to generate AI response: " ++ message), p')
  end.

Definition analysisPrompt (text : jsstring) : jsstring :=
  str "Analyze the following text and extract:" ++ [line_feed]
  ++ str "1. Key topics (max 10)" ++ [line_feed]
  ++ str "2. Important entities (people, organizations, locations, dates)"
  ++ [line_feed]
  ++ str "3. Main themes" ++ [line_feed]
  ++ str "4. Document type/category" ++ [line_feed; line_feed]
  ++ str "Text: " ++ substring text 0 4000 ++ [line_feed; line_feed]
  ++ str "Provide the response in JSON format with keys: topics, entities, themes, category.".

(** Two [catch] clauses, one inside the other: an answer that is not JSON
    and an error of the provider both give the same object. *)
Definition analysisRequest (text : jsstring) : request :=
  {| model := str "gpt-3.5-turbo";
     messages := [(str "user", analysisPrompt text)];
     max_tokens := 500%float;
     temperature := 0x1.999999999999ap-3 |}.

Definition extractTopicsAndEntities (text : jsstring) (p : provider)
    : outcome (analysis json) * provider :=
  match complete (analysisRequest text) p with
  | (inr answer, p') =>
      match JSON_parse answer with
      | Some value => (Returns (parsed value), p')
      | None => (Returns unknown, p')
      end
  | (inl _, p') => (Returns unknown, p')
  end.

(** [maxLength] is a number of the language. *)
Definition summaryPrompt (text : jsstring) (maxLength : float) : jsstring :=
  str "Provide a concise summary of the following document in approximately "
  ++ numberToString maxLength ++ str " words:" ++ [line_feed; line_feed]
  ++ substring text 0 4000.

(** [maxLength * 1.5] is the product of two binary64 numbers, rounded. *)
Definition summaryRequest (text : jsstring) (maxLength : float) : request :=
  {| model := str "gpt-3.5-turbo";
     messages := [(str "user", summaryPrompt text maxLength)];
     max_tokens := Math_ceil (maxLength * 1.5)%float;
     temperature := 0x1.3333333333333p-2 |}.

Definition generateSummary (text : jsstring) (maxLength : float)
    (p : provider) : outcome jsstring * provider :=
  match complete (summaryRequest text maxLength) p with
  | (inr answer, p') => (Returns answer, p')
  | (inl _, p') => (Returns (str "Summary generation failed"), p')
  end.

(** The default value of the parameter [maxLength]. *)
Definition defaultMaxLength : float := 200%float.

End Chat.

End Chat.

(** ** The server: upload and search

    The two routes of the server that call the service.  The modules
    [documentProcessor] and [vectorService], the file system and the clock
    are outside the program: each is a function of the state of the
    outside world, the same state the providers work on.  A request is
    taken after the body parser and the upload middleware have run. *)

Module Server.
Import JSString Chunking Service Chat.

(** [req.file], as the upload middleware leaves it. *)
Record file : Type := {
  originalname : jsstring;
  path : jsstring;
  mimetype : jsstring;
  size : Z
}.

Record metadata : Type := {
  uploadDate : jsstring;
  fileSize : Z;
  mimeType : jsstring
}.

(** The object handed to [vectorService.storeDocument], with the vector
    that [embeddings] names, if it names one. *)
Record document (num : Type) : Type := {
  filename : jsstring;
  content : jsstring;
  embeddings : option (list num);
  docMetadata : metadata
}.
Arguments filename {num} d.
Arguments content {num} d.
Arguments embeddings {num} d.
Arguments docMetadata {num} d.

(** The JSON objects the two routes answer with:
    [{ error }] or [{ error, details }];
    [{ success: true, documentId, filename, contentLength, message }];
    [{ success: true, query, results, aiResponse, timestamp }]. *)
Inductive body (documentId result : Type) : Type :=
  | failure (error : jsstring) (details : option jsstring)
  | uploaded (id : documentId) (name : jsstring) (contentLength : nat)
      (message : jsstring)
  | found (query : jsstring) (results : list result)
      (aiResponse timestamp : jsstring).
Arguments failure {documentId result} error details.
Arguments uploaded {documentId result} id name contentLength message.
Arguments found {documentId result} query results aiResponse timestamp.

Record response (documentId result : Type) : Type := {
  status : Z;
  json : body documentId result
}.
Arguments status {documentId result} r.
Arguments json {documentId result} r.

(** A value of the request body under a key, by what the search route
    does with it: [absent] when the body has no such key ([undefined]);
    the values [null], [false] and [0]; a string; and the values that are
    neither falsy nor strings ([true], a number other than 0, an array, an
    object). *)
Inductive field (other : Type) : Type :=
  | absent
  | jsonNull
  | jsonFalse
  | jsonZero
  | jsonString (s : jsstring)
  | jsonOther (v : other).
Arguments absent {other}.
Arguments jsonNull {other}.
Arguments jsonFalse {other}.
Arguments jsonZero {other}.
Arguments jsonString {other} s.
Arguments jsonOther {other} v.

Section Server.
Context {num : Type} `{Arith num}.

(** The state of the outside world. *)
Variable provider : Type.
Variable create : list N -> provider -> (list N + list num) * provider.
Variable complete : request -> provider -> (jsstring + jsstring) * provider.

Variable result : Type.
Variable resultContent : result -> jsstring.
Variable documentId : Type.

(** [documentProcessor.extractText(path, mimetype)] *)
Variable extractText :
  jsstring -> jsstring -> provider -> (jsstring + jsstring) * provider.

(** [vectorService.storeDocument(document)] *)
Variable storeDocument :
  document num -> provider -> (jsstring + documentId) * provider.

(** [vectorService.searchSimilar(queryEmbeddings, limit)] *)
Variable searchSimilar :
  option (list num) -> Z -> provider -> (jsstring + list result) * provider.

(** [fs.unlinkSync(path)] *)
Variable unlinkSync : jsstring -> provider -> (jsstring + unit) * provider.

(** [new Date().toISOString()] *)
Variable toISOString : provider -> jsstring.

(** The vector a value names in the heap; [undefined] names none. *)
Definition vectorOf (h : gmap positive (list num)) (v : value)
    : option (list num) :=
  match v with
  | Undefined => None
  | Ref r => h !! r
  end.

(** [res.status(code).json({ error })] and
    [res.status(500).json({ error, details: error.message })] *)
Definition rejected (code : Z) (error : jsstring)
    : response documentId result :=
  {| status := code; json := failure error None |}.

Definition serverError (error message : jsstring)
    : response documentId result :=
  {| status := 500; json := failure error (Some message) |}.

(** [POST /api/documents/upload].  [file] is [req.file]; [h] holds the
    arrays the process has so far. *)
Definition upload (file : option file) (h : gmap positive (list num))
    (p : provider) : option (response documentId result * provider) :=
  match file with
  | None => Some (rejected 400 (str "No file uploaded"), p)
  | Some file =>
      let error := str "Failed to process document" in
      match extractText (path file) (mimetype file) p with
      | (inl message, p1) => Some (serverError error message, p1)
      | (inr extractedText, p1) =>
          match generateEmbeddings provider create extractedText h p1 with
          | None => None
          | Some (Throw message, _, p2) => Some (serverError error message, p2)
          | Some (Return vector, h2, p2) =>
              match
                storeDocument
                  {| filename := originalname file;
                     content := extractedText;
                     embeddings := vectorOf h2 vector;
                     docMetadata :=
                       {| uploadDate := toISOString p2;
                          fileSize := size file;
                          mimeType := mimetype file |} |} p2
              with
              | (inl message, p3) => Some (serverError error message, p3)
              | (inr id, p3) =>
                  match unlinkSync (path file) p3 with
                  | (inl message, p4) => Some (serverError error message, p4)
                  | (inr _, p4) =>
                      Some ({| status := 200;
                               json :=
                                 uploaded id (originalname file)
                                   (length extractedText)
                                   (str "Document processed and indexed successfully") |},
                            p4)
                  end
              end
          end
      end
  end.

(** [POST /api/documents/search], for a body whose [query] is absent or a
    string and whose [limit] is absent or an integer. *)
Definition search (query : option jsstring) (limit : option Z)
    (h : gmap positive (list num)) (p : provider)
    : option (response documentId result * provider) :=
  let limit := match limit with Some limit => limit | None => 5 end in
  match query with
  | None => Some (rejected 400 (str "Search query is required"), p)
  | Some query =>
      if negb (truthy query) then
        Some (rejected 400 (str "Search query is required"), p)
      else
        let error := str "Search failed" in
        match generateEmbeddings provider create query h p with
        | None => None
        | Some (Throw message, _, p1) => Some (serverError error message, p1)
        | Some (Return queryEmbeddings, h1, p1) =>
            match searchSimilar (vectorOf h1 queryEmbeddings) limit p1 with
            | (inl message, p2) => Some (serverError error message, p2)
            | (inr results, p2) =>
                match
                  generateResponse provider complete result resultContent
                    query results p2
                with
                | (Throws message, p3) => Some (serverError error message, p3)
                | (Returns aiResponse, p3) =>
                    Some ({| status := 200;
                             json := found query results aiResponse
                                       (toISOString p3) |}, p3)
                end
            end
        end
  end.

(** A query that is neither falsy nor a string passes the test [!query]
    and is then used as a string, in [${query}] and in [text.trim()] of
    [generateEmbeddings]; that throws a [TypeError] before anything
    outside is called, and the route answers 500 with its message (behind
    the prefix of [generateEmbeddings] when it is thrown there). *)
Variable other : Type.
Variable typeError : other -> jsstring.

(** [POST /api/documents/search], for a body with any value under
    [query]. *)
Definition searchBody (query : field other) (limit : option Z)
    (h : gmap positive (list num)) (p : provider)
    : option (response documentId result * provider) :=
  match query with
  | absent => search None limit h p
  | jsonNull | jsonFalse | jsonZero =>
      Some (rejected 400 (str "Search query is required"), p)
  | jsonString query => search (Some query) limit h p
  | jsonOther v => Some (serverError (str "Search failed") (typeError v), p)
  end.

End Server.

Arguments rejected {result documentId} code error.
Arguments serverError {result documentId} error message.

End Server.

(** ** SmartKnowledge Agent: adding knowledge in bulk

    [addKnowledge] of [services/ragService.js] and the route
    [POST /api/knowledge/bulk-add], which calls it once per item.  The
    embedding provider, the identifier generator, the vector index and the
    clock are functions of the state of the outside world. *)

Module Knowledge.
Import JSString Chat.

(** One element of [items]: an object whose [text] is absent or a string
    and whose [metadata] is absent or an object. *)
Record item (json : Type) : Type := {
  text : option jsstring;
  metadata : option (gmap (list N) json)
}.
Arguments text {json} i.
Arguments metadata {json} i.

(** The record handed to [this.index.upsert]. *)
Record vector (num json : Type) : Type := {
  id : jsstring;
  values : list num;
  vectorMetadata : gmap (list N) json
}.

(** What the route answers with: [{ error }], or
    [{ success, message, data: { successful, failed, total, timestamp } }]
    where an element of [successful] is [{ index, id, success: true }] and
    an element of [failed] is [{ index, error }]. *)
Inductive answer : Type :=
  | refused (error : jsstring)
  | report (success : bool) (message : jsstring)
      (successful failed : list (nat * jsstring)) (total : nat)
      (timestamp : jsstring).

Section Knowledge.
Variable provider : Type.
Variable num json : Type.

(** The JSON value of a string. *)
Variable JSON_string : jsstring -> json.

Variable create : jsstring -> provider -> (jsstring + list num) * provider.
Variable uuidv4 : provider -> jsstring * provider.
Variable upsert :
  vector num json -> provider -> (jsstring + unit) * provider.
Variable toISOString : provider -> jsstring.

(** The [catch] clauses of the service throw the error again as it is. *)
Definition generateEmbedding (text : jsstring) (p : provider)
    : (jsstring + list num) * provider :=
  create text p.

(** The keys of [metadata] come last in the object literal, so they
    replace [text] and [timestamp] when they have the same name. *)
Definition addKnowledge (text : jsstring) (metadata : gmap (list N) json)
    (p : provider) : (jsstring + jsstring) * provider :=
  match generateEmbedding text p with
  | (inl message, p1) => (inl message, p1)
  | (inr embedding, p1) =>
      let '(id, p2) := uuidv4 p1 in
      match
        upsert
          {| id := id;
             values := embedding;
             vectorMetadata :=
               metadata ∪ <[str "text" := JSON_string text]>
                            (<[str "timestamp" :=
                                 JSON_string (toISOString p2)]> ∅) |} p2
      with
      | (inl message, p3) => (inl message, p3)
      | (inr _, p3) => (inr id, p3)
      end
  end.

(** [for (let i = 0; i < items.length; i++)], from index [i] on. *)
Fixpoint bulkLoop (items : list (item json)) (i : nat)
    (results errors : list (nat * jsstring)) (p : provider)
    : list (nat * jsstring) * list (nat * jsstring) * provider :=
  match items with
  | [] => (results, errors, p)
  | item :: items' =>
      let required := str "Text content is required" in
      match text item with
      | None => bulkLoop items' (S i) results (errors ++ [(i, required)]) p
      | Some text =>
          if negb (truthy text) || (length (trim text) =? 0)%nat then
            bulkLoop items' (S i) results (errors ++ [(i, required)]) p
          else
            match
              addKnowledge text
                (match metadata item with Some m => m | None => ∅ end) p
            with
            | (inr id, p') =>
                bulkLoop items' (S i) (results ++ [(i, id)]) errors p'
            | (inl message, p') =>
                bulkLoop items' (S i) results (errors ++ [(i, message)]) p'
            end
      end
  end.

(** [POST /api/knowledge/bulk-add]; [items] is [None] when the body has
    no array under that name.  The answer is the status and the body. *)
Definition bulkAdd (items : option (list (item json))) (p : provider)
    : Z * answer * provider :=
  match items with
  | None | Some [] =>
      (400, refused (str "Items array is required and cannot be empty"), p)
  | Some items =>
      let '(results, errors, p') := bulkLoop items 0 [] [] p in
      (200,
       report (length errors =? 0)%nat
         (str "Processed " ++ decimal (Z.of_nat (length items))
          ++ str " items: " ++ decimal (Z.of_nat (length results))
          ++ str " successful, " ++ decimal (Z.of_nat (length errors))
          ++ str " failed")
         results errors (length items) (toISOString p'),
       p')
  end.

End Knowledge.

End Knowledge.

(** * Part II: what the specification says of it *)

Module ChunkingExamples.
Import JSString Chunking.

Example splitSentences_runs :
  splitSentences (str "a.b!?c") = [str "a"; str "b"; str "c"].
Proof. reflexivity. Qed.

Example splitSentences_ends :
  splitSentences (str "..a.") = [str ""; str "a"; str ""].
Proof. reflexivity. Qed.

Example splitSpaces_double :
  splitSpaces (str " a  b") = [str ""; str "a"; str ""; str "b"].
Proof. reflexivity. Qed.

Example trim_both : trim (str "  a b ") = str "a b".
Proof. reflexivity. Qed.

Example split_by_words :
  splitTextIntoChunks (str "This is a test sentence that is long.") 10
  = [str "This is a"; str "test"; str "sentence"; str "that is";
     str "long"; str "."].
Proof. vm_compute. reflexivity. Qed.

(** The first word of a sentence that is split by words is dropped when
    it does not fit, and with a bound of zero or less so is every word. *)
Example split_drops_first_word :
  splitTextIntoChunks (str "abcd") 3 = []
  /\ splitTextIntoChunks (str "abcdef gh") 3 = [str "gh"].
Proof. split; vm_compute; reflexivity. Qed.

Example split_nonpositive_bound :
  splitTextIntoChunks (str "a b. c") 0 = []
  /\ splitTextIntoChunks (str "a b. c") (-5) = []
  /\ splitTextIntoChunks (str "") 0 = [str "."]
  /\ splitTextIntoChunks (str "") (-1) = [].
Proof. repeat split; vm_compute; reflexivity. Qed.

End ChunkingExamples.

(** ** Facts about the string primitives *)

Module JSStringFacts.
Import JSString.

Lemma isWhiteSpace_not_terminator c :
  isWhiteSpace c = true -> isTerminator c = false.
Proof.
  unfold isTerminator. intros Hws.
  destruct (N.eqb_spec c 46) as [->|_]; [discriminate Hws|].
  destruct (N.eqb_spec c 33) as [->|_]; [discriminate Hws|].
  destruct (N.eqb_spec c 63) as [->|_]; [discriminate Hws|].
  reflexivity.
Qed.

Lemma splitSentences_nonempty s : splitSentences s <> [].
Proof.
  induction s as [|c s IH]; [discriminate|].
  cbn [splitSentences]. destruct (isTerminator c).
  - destruct s as [|c' s]; [discriminate|].
    destruct (isTerminator c'); [exact IH|discriminate].
  - destruct (splitSentences s); discriminate.
Qed.

Lemma splitSentences_cons_terminator c c' s :
  isTerminator c = true ->
  splitSentences (c :: c' :: s)
  = if isTerminator c' then splitSentences (c' :: s)
    else [] :: splitSentences (c' :: s).
Proof. intros Hc. cbn [splitSentences]. rewrite Hc. reflexivity. Qed.

Lemma splitSentences_terminator_last c :
  isTerminator c = true -> splitSentences [c] = [[]; []].
Proof. intros Hc. cbn. by rewrite Hc. Qed.

Lemma splitSentences_cons_plain c s :
  isTerminator c = false ->
  exists piece rest,
    splitSentences s = piece :: rest /\
    splitSentences (c :: s) = (c :: piece) :: rest.
Proof.
  intros Hc. cbn [splitSentences]. rewrite Hc.
  destruct (splitSentences s) as [|piece rest] eqn:E.
  - by destruct (splitSentences_nonempty s).
  - eauto.
Qed.

(** The longest prefix of [s] whose code units satisfy [p], and the rest. *)
Fixpoint span (p : N -> bool) (s : list N) : list N * list N :=
  match s with
  | [] => ([], [])
  | c :: s' =>
      if p c then let '(prefix, rest) := span p s' in (c :: prefix, rest)
      else ([], s)
  end.

(** [splitSentences] as the regular expression reads: the first piece is
    all that comes before the first terminator; if there is one, the
    whole run of terminators it starts is the separator, and the text
    behind the run is split in the same way. *)
Lemma splitSentences_unfold s :
  splitSentences s
  = let '(piece, rest) := span (fun c => negb (isTerminator c)) s in
    match rest with
    | [] => [piece]
    | _ :: _ => piece :: splitSentences (span isTerminator rest).2
    end.
Proof.
  induction s as [|c s IH]; [reflexivity|].
  destruct (isTerminator c) eqn:Hc.
  - destruct s as [|c' s].
    + rewrite splitSentences_terminator_last by done.
      cbn [span]. rewrite Hc. cbn [negb span]. by rewrite Hc.
    + rewrite splitSentences_cons_terminator by done.
      destruct (isTerminator c') eqn:Hc'.
      * rewrite IH. cbn [span]. rewrite Hc, Hc'. cbn [negb span].
        rewrite Hc, Hc'. by destruct (span isTerminator s).
      * cbn [span]. rewrite Hc. cbn [negb span]. by rewrite Hc, Hc'.
  - destruct (splitSentences_cons_plain c s Hc) as (piece & rest & E1 & E2).
    rewrite E2. cbn [span]. rewrite Hc. cbn [negb].
    rewrite E1 in IH.
    destruct (span (fun c => negb (isTerminator c)) s) as [prefix rest'].
    destruct rest'; by injection IH as -> ->.
Qed.

Lemma splitSentences_plain s :
  forallb (fun c => negb (isTerminator c)) s = true ->
  splitSentences s = [s].
Proof.
  induction s as [|c s IH]; [reflexivity|].
  cbn [forallb]. intros [Hc Hs]%andb_true_iff.
  apply negb_true_iff in Hc.
  destruct (splitSentences_cons_plain c s Hc) as (piece & rest & E1 & E2).
  rewrite E2. rewrite (IH Hs) in E1. by injection E1 as <- <-.
Qed.

Lemma trimStart_blank_app w s :
  forallb isWhiteSpace w = true -> trimStart (w ++ s) = trimStart s.
Proof.
  induction w as [|c w IH]; [reflexivity|].
  cbn [forallb]. intros [Hc Hw]%andb_true_iff. cbn. rewrite Hc. auto.
Qed.

Lemma blank_no_terminator w :
  forallb isWhiteSpace w = true ->
  forallb (fun c => negb (isTerminator c)) w = true.
Proof.
  induction w as [|c w IH]; [reflexivity|].
  cbn [forallb]. intros [Hc Hw]%andb_true_iff.
  rewrite (isWhiteSpace_not_terminator c Hc). cbn. auto.
Qed.

End JSStringFacts.

(** ** Properties of [splitTextIntoChunks] *)

Module ChunkingFacts.
Import JSString JSStringFacts Chunking.

(** What the specification allows a chunk to be under the bound
    [maxChunkSize]: at most that long, or free of white space. *)
Definition chunkAllowed (maxChunkSize : Z) (chunk : jsstring) : bool :=
  (Z.of_nat (length chunk) <=? maxChunkSize) || negb (hasWhiteSpace chunk).

(** C1: the bound [maxChunkSize] on every chunk does not hold.  The
    accumulation path tests the buffer before it appends the full stop, so
    ["a b"] under the bound 3 comes back as the four code units ["a b."];
    and a sentence that overflows a non-empty buffer becomes the next
    buffer whole, whatever its length, so ["cd ef gh ij"] is emitted under
    the bound 5.  Both chunks contain white space. *)
Theorem splitTextIntoChunks_exceeds_maxChunkSize :
  splitTextIntoChunks (str "a b") 3 = [str "a b."]
  /\ forallb (chunkAllowed 3) (splitTextIntoChunks (str "a b") 3) = false
  /\ splitTextIntoChunks (str "ab.cd ef gh ij") 5
     = [str "ab."; str "cd ef gh ij"]
  /\ forallb (chunkAllowed 5)
       (splitTextIntoChunks (str "ab.cd ef gh ij") 5) = false.
Proof. repeat split; vm_compute; reflexivity. Qed.

Lemma trim_blank_full_stop w :
  forallb isWhiteSpace w = true -> trim (w ++ [full_stop]) = [full_stop].
Proof.
  intros Hw. unfold trim. by rewrite trimStart_blank_app.
Qed.

(** On the empty string, and on any text of white space that fits in
    [maxChunkSize], the result is the one chunk ["."]: the text is
    appended to the buffer with a full stop, and the full stop survives
    [trim] and the final filter. *)
Lemma splitTextIntoChunks_blank (text : jsstring) (maxChunkSize : Z) :
  forallb isWhiteSpace text = true ->
  Z.of_nat (length text) <= maxChunkSize ->
  splitTextIntoChunks text maxChunkSize = [str "."].
Proof.
  intros Hws Hfit. unfold splitTextIntoChunks.
  rewrite (splitSentences_plain text (blank_no_terminator text Hws)).
  cbn [fold_left sentenceStep]. unfold exceeds.
  rewrite app_nil_l.
  destruct (Z.gtb_spec (Z.of_nat (length text)) maxChunkSize) as [Hgt|_];
    [lia|].
  rewrite app_nil_l.
  replace (truthy (text ++ [full_stop])) with true
    by (by destruct text).
  rewrite (trim_blank_full_stop text Hws). reflexivity.
Qed.

Definition blank (s : list N) : Prop := forallb isWhiteSpace s = true.

Lemma trim_blank w : blank w -> trim w = [].
Proof.
  intros Hw. unfold trim.
  pose proof (trimStart_blank_app w [] Hw) as E. rewrite app_nil_r in E.
  by rewrite E.
Qed.

Lemma blank_app w v : blank w -> blank v -> blank (w ++ v).
Proof. unfold blank. rewrite forallb_app. by intros -> ->. Qed.

Lemma splitSpaces_blank w : blank w -> Forall blank (splitSpaces w).
Proof.
  unfold blank.
  induction w as [|c w IH]; [by repeat constructor|].
  cbn [forallb splitSpaces]. intros [Hc Hw]%andb_true_iff.
  specialize (IH Hw). destruct (c =? space)%N; [by constructor|].
  destruct (splitSpaces w) as [|word rest].
  - constructor; [cbn; by rewrite Hc|constructor].
  - apply Forall_cons in IH as [Hword Hrest]. constructor; [|done].
    cbn. by rewrite Hc.
Qed.

Lemma wordStep_blank n words : forall chunks wordChunk,
  Forall blank words ->
  Forall (fun chunk => chunk = []) chunks -> blank wordChunk ->
  Forall (fun chunk => chunk = []) (fold_left (wordStep n) words (chunks, wordChunk)).1
  /\ blank (fold_left (wordStep n) words (chunks, wordChunk)).2.
Proof.
  induction words as [|word words IH]; intros chunks wc Hwords Hchunks Hwc;
    [done|].
  apply Forall_cons in Hwords as [Hword Hwords].
  cbn [fold_left]. unfold wordStep at 2 4.
  destruct (exceeds _ n); [destruct (truthy wc)|]; apply IH; try done.
  - apply Forall_app. split; [done|]. constructor; [|constructor].
    by apply trim_blank.
  - apply blank_app; [done|]. by apply (blank_app [space]).
Qed.

(** The sibling path does return the empty sequence: white space longer
    than [maxChunkSize] is split by words, every word buffer is blank, and
    the final filter drops all of them. *)
Lemma splitTextIntoChunks_blank_overlong (text : list N) (maxChunkSize : Z) :
  blank text ->
  maxChunkSize < Z.of_nat (length text) ->
  splitTextIntoChunks text maxChunkSize = [].
Proof.
  intros Hws Hlong. unfold splitTextIntoChunks.
  rewrite (splitSentences_plain text (blank_no_terminator text Hws)).
  cbn [fold_left sentenceStep]. unfold exceeds. rewrite app_nil_l.
  destruct (Z.gtb_spec (Z.of_nat (length text)) maxChunkSize) as [_|]; [|lia].
  cbn [truthy]. unfold splitByWords.
  destruct (wordStep_blank maxChunkSize (splitSpaces text) [] []
              (splitSpaces_blank text Hws) ltac:(constructor) eq_refl)
    as [Hchunks Hwc].
  destruct (fold_left _ _ _) as [chunks wc]. cbn [fst snd] in *.
  assert (Forall (fun chunk => chunk = [])
            (if truthy wc then chunks ++ [trim wc] else chunks)) as Hall.
  { destruct (truthy wc); [|done]. apply Forall_app. split; [done|].
    constructor; [by apply trim_blank|constructor]. }
  induction Hall as [|chunk rest -> _ IH]; [done|]. exact IH.
Qed.

(** C2 as stated fails: under a positive bound the empty string and a
    text of white space do not always give the empty sequence.  The empty
    string under the bound 1 and three spaces under the bound 3 both give
    the one chunk ["."]. *)
Lemma splitTextIntoChunks_blank_not_empty :
  ~ (forall maxChunkSize : Z,
       0 < maxChunkSize ->
       splitTextIntoChunks (str "") maxChunkSize = []
       /\ forall text : jsstring,
            forallb isWhiteSpace text = true ->
            splitTextIntoChunks text maxChunkSize = [])
  /\ splitTextIntoChunks (str "") 1 = [str "."]
  /\ splitTextIntoChunks (str "   ") 3 = [str "."].
Proof.
  split_and!; [|reflexivity|reflexivity].
  intros Hclaim. destruct (Hclaim 1 ltac:(lia)) as [Hempty _].
  discriminate Hempty.
Qed.

(** C2, amended: on the empty string and on any text of white space, the
    result is the one chunk ["."] when the text is no longer than
    [maxChunkSize], and the empty sequence when it is longer.  So the
    empty string gives ["."] under every bound that is not negative. *)
Theorem splitTextIntoChunks_blank_cases (text : jsstring) (maxChunkSize : Z) :
  forallb isWhiteSpace text = true ->
  splitTextIntoChunks text maxChunkSize
  = if Z.of_nat (length text) <=? maxChunkSize then [str "."] else [].
Proof.
  intros Hws.
  destruct (Z.leb_spec (Z.of_nat (length text)) maxChunkSize) as [Hfit|Hlong].
  - by apply splitTextIntoChunks_blank.
  - by apply splitTextIntoChunks_blank_overlong.
Qed.

Lemma splitTextIntoChunks_blank_cases_witness :
  splitTextIntoChunks (str "") 1 = [str "."]
  /\ splitTextIntoChunks (str "   ") 3 = [str "."]
  /\ splitTextIntoChunks (str "   ") 2 = [].
Proof.
  split_and!.
  - apply (splitTextIntoChunks_blank_cases (str "") 1). reflexivity.
  - apply (splitTextIntoChunks_blank_cases (str "   ") 3). reflexivity.
  - apply (splitTextIntoChunks_blank_cases (str "   ") 2). reflexivity.
Defined.

End ChunkingFacts.

(** ** Loop bounds of [splitTextIntoChunks] *)

Module ChunkingBounds.
Import JSString JSStringFacts Chunking.

Local Open Scope nat_scope.

(** One unit for the piece itself and one per code unit in it. *)
Fixpoint weight (pieces : list jsstring) : nat :=
  match pieces with
  | [] => 0
  | piece :: rest => S (length piece) + weight rest
  end.

(** A pending buffer counts as one chunk still to be emitted. *)
Definition pending (buffer : jsstring) : nat :=
  if truthy buffer then 1 else 0.

Lemma splitSpaces_length s : length (splitSpaces s) <= length s + 1.
Proof.
  induction s as [|c s IH]; cbn [splitSpaces length]; [lia|].
  destruct (c =? space)%N; cbn [length]; [lia|].
  destruct (splitSpaces s); cbn [length] in *; lia.
Qed.

Lemma splitSentences_weight s : weight (splitSentences s) <= length s + 1.
Proof.
  induction s as [|c s IH]; [cbn; lia|].
  destruct (isTerminator c) eqn:Hc.
  - destruct s as [|c' s].
    + rewrite (splitSentences_terminator_last c Hc). cbn. lia.
    + rewrite (splitSentences_cons_terminator c c' s Hc).
      destruct (isTerminator c'); cbn [weight length] in *; lia.
  - destruct (splitSentences_cons_plain c s Hc) as (piece & rest & E1 & E2).
    rewrite E2. rewrite E1 in IH. cbn [weight length] in *. lia.
Qed.

Lemma length_le_weight pieces : length pieces <= weight pieces.
Proof. induction pieces; cbn [weight length]; lia. Qed.

Lemma pending_le_1 s : pending s <= 1.
Proof. unfold pending. destruct (truthy s); lia. Qed.

Lemma pending_le_weight s : pending s <= S (length s).
Proof. pose proof (pending_le_1 s). lia. Qed.

Lemma wordStep_count n words : forall chunks wordChunk chunks' wordChunk',
  fold_left (wordStep n) words (chunks, wordChunk) = (chunks', wordChunk') ->
  length chunks' + pending wordChunk'
  <= length chunks + pending wordChunk + length words.
Proof.
  induction words as [|word words IH]; intros chunks wc chunks' wc' E.
  - cbn in E. injection E as <- <-. lia.
  - cbn [fold_left] in E. unfold wordStep at 2 in E.
    destruct (exceeds _ n).
    + destruct (truthy wc) eqn:T.
      * apply IH in E. rewrite length_app in E. cbn [length] in *.
        pose proof (pending_le_1 word). unfold pending at 2. rewrite T. lia.
      * apply IH in E. cbn [length]. lia.
    + apply IH in E. pose proof (pending_le_1 (wc ++ [space] ++ word)).
      cbn [length]. lia.
Qed.

Lemma splitByWords_length n chunks sentence :
  length (splitByWords n chunks sentence)
  <= length chunks + S (length sentence).
Proof.
  unfold splitByWords.
  destruct (fold_left _ _ _) as [chunks' wc'] eqn:E.
  apply wordStep_count in E. pose proof (splitSpaces_length sentence).
  unfold pending in E. cbn [truthy] in E.
  destruct (truthy wc'); rewrite ?length_app; cbn [length]; lia.
Qed.

Lemma sentenceStep_count n sentences : forall chunks cur chunks' cur',
  fold_left (sentenceStep n) sentences (chunks, cur) = (chunks', cur') ->
  length chunks' + pending cur'
  <= length chunks + pending cur + weight sentences.
Proof.
  induction sentences as [|s sentences IH]; intros chunks cur chunks' cur' E.
  - cbn in E. injection E as <- <-. cbn. lia.
  - cbn [fold_left] in E. unfold sentenceStep at 2 in E.
    change (weight (s :: sentences)) with (S (length s) + weight sentences).
    destruct (exceeds _ n).
    + destruct (truthy cur) eqn:T.
      * apply IH in E. rewrite length_app in E. cbn [length] in E.
        pose proof (pending_le_weight s). unfold pending at 2. rewrite T.
        lia.
      * apply IH in E. pose proof (splitByWords_length n chunks s). lia.
    + apply IH in E.
      pose proof (pending_le_1 (cur ++ s ++ [full_stop])). lia.
Qed.

(** C10: [splitTextIntoChunks] is a total function of the text and of any
    integer [maxChunkSize], positive or not.  Its loops run over the
    sentence list and the word lists, whose lengths the text bounds, and
    the list it returns has at most [length text + 1] chunks. *)
Theorem splitTextIntoChunks_terminates (text : jsstring) (maxChunkSize : Z) :
  length (splitSentences text) <= length text + 1
  /\ Forall (fun sentence =>
              length (splitSpaces sentence) <= length sentence + 1)
       (splitSentences text)
  /\ exists chunks,
       splitTextIntoChunks text maxChunkSize = chunks
       /\ length chunks <= length text + 1.
Proof.
  split; [|split].
  - pose proof (length_le_weight (splitSentences text)).
    pose proof (splitSentences_weight text). lia.
  - apply Forall_forall. intros s _. apply splitSpaces_length.
  - eexists. split; [reflexivity|].
    unfold splitTextIntoChunks.
    destruct (fold_left _ _ _) as [chunks cur] eqn:E.
    apply sentenceStep_count in E.
    pose proof (splitSentences_weight text).
    etransitivity; [apply List.filter_length_le|].
    unfold pending in E at 1. cbn [length pending truthy] in E.
    destruct (truthy cur); rewrite ?length_app; cbn [length]; lia.
Qed.

End ChunkingBounds.

(** ** Sentences and where they start

    To compare two passes of the chunker over related texts, each sentence
    is paired with the number of code units that remain in the text at its
    first code unit. *)

Module Located.
Import JSString JSStringFacts.

Local Open Scope nat_scope.

Definition bump (entries : list (nat * list N)) : list (nat * list N) :=
  match entries with
  | (r, piece) :: rest => (S r, piece) :: rest
  | [] => []
  end.

(** [splitSentences] with, for each piece, the length of the text from
    the start of the piece on. *)
Fixpoint locate (s : list N) : list (nat * list N) :=
  match s with
  | [] => [(0, [])]
  | c :: s' =>
      if isTerminator c then
        match s' with
        | c' :: _ => if isTerminator c' then bump (locate s')
                     else (length s, []) :: locate s'
        | [] => (length s, []) :: locate s'
        end
      else
        match locate s' with
        | (r, piece) :: rest => (S r, c :: piece) :: rest
        | [] => [(length s, [c])]
        end
  end.

Lemma locate_cons_terminator c c' s :
  isTerminator c = true ->
  locate (c :: c' :: s)
  = if isTerminator c' then bump (locate (c' :: s))
    else (length (c :: c' :: s), []) :: locate (c' :: s).
Proof. intros Hc. cbn [locate]. rewrite Hc. reflexivity. Qed.

Lemma locate_pieces s : (snd <$> locate s) = splitSentences s.
Proof.
  induction s as [|c s IH]; [reflexivity|].
  destruct (isTerminator c) eqn:Hc.
  - destruct s as [|c' s].
    + cbn. by rewrite Hc.
    + rewrite locate_cons_terminator, splitSentences_cons_terminator by done.
      rewrite <- IH. destruct (isTerminator c'); [|reflexivity].
      by destruct (locate (c' :: s)) as [|[r p] rest].
  - destruct (splitSentences_cons_plain c s Hc) as (piece & rest & E1 & E2).
    rewrite E2. cbn [locate]. rewrite Hc.
    rewrite E1 in IH.
    destruct (locate s) as [|[r p] rest']; [discriminate|].
    cbn in IH |- *. congruence.
Qed.

Definition noTerminator (s : list N) : Prop :=
  Forall (fun c => isTerminator c = false) s.

(** After the piece comes the piece [next], if any, behind at least one
    terminator. *)
Definition adjacent (r : nat) (piece : list N)
    (next : list (nat * list N)) : Prop :=
  match next with
  | (r', _) :: _ => r' + length piece + 1 <= r
  | [] => True
  end.

(** Consecutive pieces are apart, and only the last can be empty. *)
Inductive chain : list (nat * list N) -> Prop :=
  | chain_nil : chain []
  | chain_last r piece : chain [(r, piece)]
  | chain_cons r piece next :
      next <> [] -> piece <> [] -> adjacent r piece next -> chain next ->
      chain ((r, piece) :: next).

(** A piece behind the first one sits in [s] right after a terminator. *)
Definition inner (s : list N) (entry : nat * list N) : Prop :=
  exists pre t post,
    s = pre ++ [t] ++ entry.2 ++ post
    /\ isTerminator t = true
    /\ length (entry.2 ++ post) = entry.1
    /\ noTerminator entry.2.

Definition startsPlain (s : list N) : Prop :=
  match s with
  | c :: _ => isTerminator c = false
  | [] => False
  end.

Lemma inner_cons c s entry : inner s entry -> inner (c :: s) entry.
Proof.
  intros (pre & t & post & -> & Ht & Hr & Hp).
  by exists (c :: pre), t, post.
Qed.

Lemma locate_structure s :
  exists first rest post,
    locate s = (length s, first) :: rest
    /\ s = first ++ post
    /\ noTerminator first
    /\ adjacent (length s) first rest
    /\ chain rest
    /\ (startsPlain s -> first <> [])
    /\ Forall (inner s) rest.
Proof.
  induction s as [|c s IH].
  - exists [], [], []. split_and!; try done; constructor.
  - destruct IH as (q & rest & post & Hloc & Hs & Hq & Hadj & Hchain & Hplain & Hin).
    assert (Forall (inner (c :: s)) rest) as Hin'
      by (eapply Forall_impl; [exact Hin|]; intros e; apply inner_cons).
    destruct (isTerminator c) eqn:Hc.
    + destruct s as [|c' s].
      * exists [], [(0, [])], [c]. cbn [locate]. rewrite Hc.
        split_and!; try done; try constructor.
        -- cbn. congruence.
        -- exists [], c, []. split_and!; try done. constructor.
        -- constructor.
      * rewrite locate_cons_terminator by done.
        destruct (isTerminator c') eqn:Hc'.
        -- (* inside a run: the empty first piece moves one place left *)
           assert (q = []) as ->.
           { destruct q as [|x q]; [done|]. cbn in Hs. injection Hs as <- _.
             apply Forall_cons in Hq as [Hx _]. congruence. }
           exists [], rest, (c :: c' :: s). rewrite Hloc. cbn [bump].
           split_and!; try done; try constructor.
           ++ destruct rest as [|[r' p'] rest]; [done|]. cbn in *. lia.
           ++ cbn. congruence.
        -- exists [], ((length (c' :: s), q) :: rest), (c :: c' :: s).
           rewrite Hloc. split_and!; try done.
           ++ constructor.
           ++ cbn [adjacent length]. lia.
           ++ destruct rest as [|e rest]; [constructor|].
              constructor; try done. by apply Hplain.
           ++ cbn. congruence.
           ++ constructor; [|exact Hin'].
              exists [], c, post. cbn [fst snd]. split_and!; try done.
              ** cbn. by rewrite <- Hs.
              ** by rewrite <- Hs.
    + exists (c :: q), rest, post. cbn [locate]. rewrite Hc, Hloc.
      split_and!; try done.
      * cbn. by rewrite <- Hs.
      * by constructor.
      * destruct rest as [|[r' p'] rest]; [done|]. cbn in *. lia.
Qed.

End Located.

(** ** Re-chunking the chunks of a first pass *)

Module Rechunk.
Import JSString JSStringFacts Chunking ChunkingBounds Located.

Local Open Scope nat_scope.

Lemma sentenceStep_truthy n chunks cur s :
  cur <> [] ->
  sentenceStep n (chunks, cur) s
  = if exceeds (cur ++ s) n then (chunks ++ [trim cur], s)
    else (chunks, cur ++ s ++ [full_stop]).
Proof. intros Hcur. unfold sentenceStep. by destruct cur. Qed.

Lemma pending_nonempty s : s <> [] -> pending s = 1.
Proof. by destruct s. Qed.

Lemma exceeds_false s n :
  exceeds s n = false <-> (Z.of_nat (length s) <= n)%Z.
Proof. unfold exceeds. rewrite Z.gtb_ltb. apply Z.ltb_ge. Qed.

(** *** The second pass over the joined blocks

    The blocks [cs] are the chunks of the first pass; the second pass
    reads their concatenation.  [remaining j] is what is left of the text
    at the start of block [j] (counted from 0). *)

Section Blocks.
Variable n : Z.
Variable cs : list (list N).

Definition remaining (j : nat) : nat := length (concat (drop j cs)).

Lemma remaining_end j : length cs <= j -> remaining j = 0.
Proof. intros Hj. unfold remaining. by rewrite drop_ge. Qed.

(** A piece that starts strictly inside block [j] fits in [n] together
    with the part of the block before it. *)
Definition insideFits (entry : nat * list N) : Prop :=
  length entry.2 <= entry.1
  /\ forall j, remaining (S j) < entry.1 < remaining j ->
       (Z.of_nat (remaining j - entry.1) + Z.of_nat (length entry.2) <= n)%Z.

(** The buffer of length [len], begun where [rb] code units remained,
    lies before the next piece. *)
Definition within (len rb : nat) (next : list (nat * list N)) : Prop :=
  match next with
  | (r, _) :: _ => len + r <= rb
  | [] => True
  end.

(** An overflow is never strictly inside the block the buffer began in:
    the second pass closes chunk number [k + 1] no earlier than the first
    pass did. *)
Lemma overflow_next_block (k : nat) (cur piece : list N) (r rb : nat) :
  insideFits (r, piece) ->
  cur <> [] ->
  length cur + r <= rb ->
  rb <= remaining k ->
  exceeds (cur ++ piece) n = true ->
  r <= remaining (S k).
Proof.
  intros [_ Hfit] Hcur Hspan Hrb Hover.
  destruct (le_lt_dec r (remaining (S k))) as [|Hlt]; [done|]. exfalso.
  assert (0 < length cur) by (destruct cur; [done|cbn; lia]).
  cbn [fst snd] in Hfit. specialize (Hfit k ltac:(lia)).
  unfold exceeds in Hover. apply Z.gtb_lt in Hover.
  rewrite length_app in Hover. lia.
Qed.

Lemma rerun_steps (entries : list (nat * list N)) :
  forall chunks cur rb chunks' cur',
    chain entries ->
    Forall insideFits entries ->
    cur <> [] ->
    within (length cur) rb entries ->
    rb <= remaining (length chunks) ->
    length chunks + 1 <= length cs ->
    fold_left (sentenceStep n) entries.*2 (chunks, cur) = (chunks', cur') ->
    length chunks' + pending cur' <= length cs.
Proof.
  induction entries as [|[r piece] entries IH];
    intros chunks cur rb chunks' cur' Hchain Hfits Hcur Hin Hrb Hm E.
  - cbn in E. injection E as <- <-. by rewrite pending_nonempty.
  - apply Forall_cons in Hfits as [Hfit Hfits]. cbn [within] in Hin.
    cbn [fmap list_fmap fold_left snd] in E.
    rewrite sentenceStep_truthy in E by done.
    destruct (exceeds (cur ++ piece) n) eqn:Hover.
    + (* the buffer is emitted and the piece starts the next one *)
      pose proof (overflow_next_block (length chunks) cur piece r rb
                    Hfit Hcur Hin Hrb Hover) as Hnext.
      assert (piece <> [] -> length (chunks ++ [trim cur]) + 1 <= length cs)
        as Hroom.
      { intros Hp. rewrite length_app. cbn [length].
        destruct (le_lt_dec (length cs) (S (length chunks))) as [Hge|]; [|lia].
        rewrite (remaining_end _ Hge) in Hnext.
        destruct Hfit as [Hlen _]. cbn [fst snd] in Hlen.
        destruct piece; [done|cbn in Hlen; lia]. }
      inversion Hchain as [|? ?|? ? ? Hne Hp Hadj Hrest]; subst.
      * cbn in E. injection E as <- <-.
        destruct piece as [|c piece].
        -- rewrite length_app. cbn. lia.
        -- specialize (Hroom ltac:(done)). rewrite pending_nonempty by done.
           lia.
      * refine (IH _ _ r _ _ Hrest Hfits Hp _ _ (Hroom Hp) E).
        -- destruct entries as [|[r' p'] entries]; [done|].
           cbn [within adjacent] in *. lia.
        -- rewrite length_app. cbn [length].
           by replace (length chunks + 1) with (S (length chunks)) by lia.
    + (* the piece joins the buffer *)
      inversion Hchain as [|? ?|? ? ? Hne Hp Hadj Hrest]; subst.
      * cbn in E. injection E as <- <-.
        rewrite pending_nonempty by (by destruct cur). lia.
      * refine (IH _ _ rb _ _ Hrest Hfits _ _ Hrb Hm E).
        -- by destruct cur.
        -- destruct entries as [|[r' p'] entries]; [done|].
           cbn [within adjacent] in *. rewrite !length_app. cbn [length].
           lia.
Qed.

(** A buffer that holds a terminator ends with the full stop appended
    last, and was within [n] before that. *)
Definition closed (g : list N) : Prop :=
  exists g', g = g' ++ [full_stop] /\ (Z.of_nat (length g') <= n)%Z.

Definition shaped (g : list N) : Prop := noTerminator g \/ closed g.

Lemma piece_before_terminator (p post v : list N) (y : N) (rest : list N) :
  noTerminator p ->
  isTerminator y = true ->
  p ++ post = v ++ [y] ++ rest ->
  length p <= length v.
Proof.
  intros Hp Hy. revert p Hp. induction v as [|a v IH]; intros p Hp E.
  - destruct p as [|x p]; [done|]. cbn in E. injection E as -> _.
    apply Forall_cons in Hp as [Hx _]. congruence.
  - destruct p as [|x p]; [cbn; lia|]. cbn in E. injection E as _ E.
    apply Forall_cons in Hp as [_ Hp]. cbn. specialize (IH p Hp E). lia.
Qed.

Lemma remaining_lookup j c :
  cs !! j = Some c -> remaining j = length c + remaining (S j).
Proof.
  intros Hj. unfold remaining. rewrite (drop_S _ _ _ Hj).
  cbn [concat]. apply length_app.
Qed.

Lemma inner_insideFits (entry : nat * list N) :
  Forall shaped cs -> inner (concat cs) entry -> insideFits entry.
Proof.
  destruct entry as [r p].
  intros Hshape (pre & t & post & HT & Ht & Hr & Hp). cbn [fst snd] in *.
  split; cbn [fst snd].
  { rewrite length_app in Hr. lia. }
  intros j [Hlo Hhi].
  destruct (le_lt_dec (length cs) j) as [Hge|Hj].
  { rewrite (remaining_end _ Hge) in Hhi. lia. }
  destruct (lookup_lt_is_Some_2 cs j Hj) as [c Hc].
  pose proof (remaining_lookup j c Hc) as Hrem.
  set (k := remaining j - r).
  assert (concat cs
          = (concat (take j cs) ++ take k c) ++ (drop k c ++ concat (drop (S j) cs)))
    as Hsplit.
  { rewrite <- (take_drop j cs) at 1. rewrite (drop_S _ _ _ Hc).
    rewrite concat_app. cbn [concat].
    rewrite <- (take_drop k c) at 1. by rewrite <- !app_assoc. }
  assert (length (drop k c ++ concat (drop (S j) cs)) = r) as Hlen.
  { rewrite length_app, length_drop. fold (remaining (S j)). lia. }
  rewrite HT in Hsplit.
  replace (pre ++ [t] ++ p ++ post) with ((pre ++ [t]) ++ (p ++ post))
    in Hsplit by (by rewrite <- !app_assoc).
  apply app_inj_2 in Hsplit as [Hpre Hsuf]; [|congruence].
  (* the part of the block before the piece ends with the terminator *)
  assert (length (take k c) = k) as Hk by (rewrite length_take; lia).
  destruct (take k c) as [|x u _] eqn:Eu using rev_ind.
  { cbn in Hk. lia. }
  rewrite app_assoc in Hpre. apply app_inj_tail in Hpre as [_ <-].
  (* so the block is closed, and the piece ends before its full stop *)
  assert (c = (u ++ [t]) ++ drop k c) as Ec
    by (by rewrite <- Eu, take_drop).
  assert (closed c) as (c' & Ec' & Hc').
  { destruct (Forall_lookup_1 _ _ _ _ Hshape Hc) as [Hno|]; [|done].
    rewrite Ec in Hno. apply Forall_app in Hno as [Hno _].
    apply Forall_app in Hno as [_ Hno].
    apply Forall_cons in Hno as [Hno _]. congruence. }
  assert (length (drop k c) = length c - k) as Hv by apply length_drop.
  destruct (drop k c) as [|y v _] eqn:Ev using rev_ind.
  { cbn in Hv. lia. }
  rewrite Ec' in Ec. rewrite app_assoc in Ec.
  apply app_inj_tail in Ec as [-> <-].
  rewrite <- app_assoc in Hsuf.
  assert (length p <= length v) as Hpv.
  { eapply (piece_before_terminator p post v full_stop); [done|done|].
    exact Hsuf. }
  rewrite !length_app in Hc'. rewrite length_app in Hk. cbn [length] in *.
  lia.
Qed.

End Blocks.

(** *** The first pass when the first sentence fits

    Then the buffer is never empty when a sentence arrives, the branch
    that splits by words is never taken, and every buffer is either one
    whole sentence or ends with the full stop appended to it. *)

Lemma trimStart_suffix s : exists w, s = w ++ trimStart s.
Proof.
  induction s as [|c s [w IH]]; [by exists []|]. cbn.
  destruct (isWhiteSpace c); [|by exists []].
  exists (c :: w). cbn. by rewrite <- IH.
Qed.

Lemma trim_infix s : exists w1 w2, s = w1 ++ trim s ++ w2.
Proof.
  unfold trim, trimEnd.
  destruct (trimStart_suffix s) as [w1 H1].
  destruct (trimStart_suffix (rev (trimStart s))) as [w2 H2].
  exists w1, (rev w2). rewrite <- rev_app_distr, <- H2, rev_involutive.
  exact H1.
Qed.

Lemma trim_noTerminator s : noTerminator s -> noTerminator (trim s).
Proof.
  intros Hs. destruct (trim_infix s) as (w1 & w2 & E). rewrite E in Hs.
  apply Forall_app in Hs as [_ Hs]. by apply Forall_app in Hs as [Hs _].
Qed.

Lemma trimStart_closed g :
  exists y, trimStart (g ++ [full_stop]) = y ++ [full_stop]
            /\ length y <= length g.
Proof.
  induction g as [|c g (y & IH & Hy)]; [by exists []|]. cbn.
  destruct (isWhiteSpace c).
  - exists y. split; [done|lia].
  - by exists (c :: g).
Qed.

Lemma trim_closed n g : closed n g -> closed n (trim g).
Proof.
  intros (g' & -> & Hg). unfold trim, trimEnd.
  destruct (trimStart_closed g') as (y & -> & Hy).
  exists y. split; [|lia].
  rewrite rev_app_distr. cbn. by rewrite rev_involutive.
Qed.

Lemma trim_shaped n g : shaped n g -> shaped n (trim g).
Proof.
  intros [Hg|Hg]; [left; by apply trim_noTerminator|right; by apply trim_closed].
Qed.

Lemma closed_nonempty n g : closed n g -> g <> [].
Proof. intros (g' & -> & _). by destruct g'. Qed.

(** The state of the first pass: every chunk and the buffer are shaped,
    and the oldest of them is closed. *)
Definition good (n : Z) (st : list (list N) * list N) : Prop :=
  Forall (shaped n) st.1
  /\ shaped n st.2
  /\ match st.1 with
     | c :: _ => closed n c
     | [] => closed n st.2
     end.

Lemma good_step n chunks cur s :
  cur <> [] -> noTerminator s -> good n (chunks, cur) ->
  good n (sentenceStep n (chunks, cur) s).
Proof.
  intros Hcur Hs (Hchunks & Hshape & Hfirst). cbn [fst snd] in *.
  rewrite sentenceStep_truthy by done.
  destruct (exceeds (cur ++ s) n) eqn:Hover; split_and!; cbn [fst snd].
  - apply Forall_app. split; [done|]. constructor; [|constructor].
    by apply trim_shaped.
  - by left.
  - destruct chunks; [|done]. cbn. by apply trim_closed.
  - done.
  - right. exists (cur ++ s). split; [by rewrite <- app_assoc|].
    by apply exceeds_false.
  - destruct chunks; [|done]. exists (cur ++ s).
    split; [by rewrite <- app_assoc|]. by apply exceeds_false.
Qed.

Lemma first_pass_steps n (entries : list (nat * list N)) :
  forall chunks cur,
    chain entries ->
    Forall (fun e => noTerminator e.2) entries ->
    cur <> [] ->
    good n (chunks, cur) ->
    good n (fold_left (sentenceStep n) entries.*2 (chunks, cur)).
Proof.
  induction entries as [|[r piece] entries IH];
    intros chunks cur Hchain Hplain Hcur Hgood; [done|].
  apply Forall_cons in Hplain as [Hp Hplain].
  cbn [fmap list_fmap fold_left snd] in *.
  pose proof (good_step n chunks cur piece Hcur Hp Hgood) as Hstep.
  inversion Hchain as [|? ?|? ? ? Hne Hpiece Hadj Hrest]; subst; [done|].
  rewrite sentenceStep_truthy in Hstep |- * by done.
  destruct (exceeds (cur ++ piece) n); apply IH; try done.
  by destruct cur.
Qed.

Lemma filter_nonempty (P : list N -> Prop) (chunks : list (list N)) :
  Forall P chunks ->
  Forall (fun c => P c /\ c <> [])
    (List.filter (fun chunk => (0 <? length chunk)%nat) chunks).
Proof.
  induction 1 as [|c chunks Hc _ IH]; [constructor|]. cbn.
  destruct c; cbn; [done|]. by constructor.
Qed.

(** What the first pass returns when the first sentence fits: at least one
    chunk, the first one closed, all of them shaped and none empty. *)
Lemma first_pass_blocks (text : list N) (n : Z) :
  exceeds (hd [] (splitSentences text)) n = false ->
  exists c cs,
    splitTextIntoChunks text n = c :: cs
    /\ closed n c
    /\ Forall (fun c => shaped n c /\ c <> []) cs.
Proof.
  intros Hfits.
  destruct (locate_structure text)
    as (first & rest & post & Hloc & _ & Hfirst & _ & Hchain & _ & Hin).
  pose proof (locate_pieces text) as Hpieces. rewrite Hloc in Hpieces.
  cbn [fmap list_fmap snd] in Hpieces. rewrite <- Hpieces in Hfits.
  cbn [hd] in Hfits.
  unfold splitTextIntoChunks. rewrite <- Hpieces. cbn [fold_left].
  unfold sentenceStep at 2. rewrite !app_nil_l, Hfits.
  assert (good n ([], first ++ [full_stop])) as Hgood.
  { assert (closed n (first ++ [full_stop]))
      by (exists first; split; [done|by apply exceeds_false]).
    split_and!; cbn [fst snd]; [constructor|by right|done]. }
  assert (Forall (fun e : nat * list N => noTerminator e.2) rest) as Hplain.
  { eapply Forall_impl; [exact Hin|]. by intros e (? & ? & ? & _ & _ & _ & ?). }
  pose proof (first_pass_steps n rest [] (first ++ [full_stop]) Hchain Hplain
                ltac:(by destruct first) Hgood) as Hend.
  destruct (fold_left _ _ _) as [chunks cur].
  destruct Hend as (Hchunks & Hshape & Hhead). cbn [fst snd] in *.
  assert (exists c L,
             (if truthy cur then chunks ++ [trim cur] else chunks) = c :: L
             /\ closed n c /\ Forall (shaped n) L) as (c & L & -> & Hc & HL).
  { destruct chunks as [|c chunks].
    - pose proof (closed_nonempty n cur Hhead).
      exists (trim cur), []. destruct cur; [done|]. cbn [truthy app].
      split_and!; [done|by apply trim_closed|constructor].
    - apply Forall_cons in Hchunks as [_ Hchunks].
      destruct (truthy cur).
      + exists c, (chunks ++ [trim cur]). split_and!; [done|done|].
        apply Forall_app. split; [done|].
        constructor; [by apply trim_shaped|constructor].
      + by exists c, chunks. }
  exists c, (List.filter (fun chunk => (0 <? length chunk)%nat) L).
  split_and!; [|done|by apply filter_nonempty].
  cbn [List.filter]. pose proof (closed_nonempty n c Hc). by destruct c.
Qed.

(** C9 as stated fails: re-chunking can emit more chunks than the first
    pass.  The chunks ["a a"] and ["aa a"] of ["a a aa a"] under the bound 4
    join to ["a aaa a"], whose words split into three chunks. *)
Lemma rechunk_count_grows :
  ~ (forall (text : jsstring) (maxChunkSize : Z),
       (0 < maxChunkSize)%Z ->
       length (splitTextIntoChunks
                 (rejoin (splitTextIntoChunks text maxChunkSize))
                 maxChunkSize)
       <= length (splitTextIntoChunks text maxChunkSize)).
Proof.
  intros H. specialize (H (str "a a aa a") 4%Z ltac:(lia)).
  vm_compute in H. lia.
Qed.

(** C9, amended: when the first sentence of the text (the part before its
    first ".", "!" or "?") is no longer than [maxChunkSize], so that no
    sentence is split by words, re-chunking the concatenation of the
    emitted chunks under the same bound gives no more chunks than the
    first pass gave. *)
Theorem rechunk_stable (text : list N) (maxChunkSize : Z) :
  (0 < maxChunkSize)%Z ->
  exceeds (hd [] (splitSentences text)) maxChunkSize = false ->
  length (splitTextIntoChunks
            (rejoin (splitTextIntoChunks text maxChunkSize)) maxChunkSize)
  <= length (splitTextIntoChunks text maxChunkSize).
Proof.
  intros _ Hfits. set (n := maxChunkSize) in *.
  destruct (first_pass_blocks text n Hfits) as (c & cs' & -> & Hc & Hcs').
  set (cs := c :: cs').
  assert (Forall (shaped n) cs) as Hshaped.
  { constructor; [by right|].
    eapply Forall_impl; [exact Hcs'|]. by intros ? [? _]. }
  unfold rejoin.
  destruct (locate_structure (concat cs))
    as (first & rest & post & Hloc & Hs & Hfirst & Hadj & Hchain & _ & Hin).
  pose proof (locate_pieces (concat cs)) as Hpieces. rewrite Hloc in Hpieces.
  cbn [fmap list_fmap snd] in Hpieces.
  (* the first piece lies inside the first block, before its full stop *)
  assert (exceeds first n = false) as Hfirst_fits.
  { destruct Hc as (c' & Ec & Hc'). apply exceeds_false.
    assert (length first <= length c'); [|lia].
    eapply (piece_before_terminator first post c' full_stop (concat cs'));
      [done|done|].
    rewrite <- Hs. unfold cs. cbn [concat]. rewrite Ec.
    by rewrite <- app_assoc. }
  unfold splitTextIntoChunks at 1. rewrite <- Hpieces. cbn [fold_left].
  unfold sentenceStep at 2. rewrite !app_nil_l, Hfirst_fits.
  destruct (fold_left _ _ _) as [chunks' cur'] eqn:E.
  assert (length chunks' + pending cur' <= length cs) as Hcount.
  { eapply (rerun_steps n cs rest [] (first ++ [full_stop])
              (length (concat cs))); [done| |by destruct first| | | |exact E].
    - eapply Forall_impl; [exact Hin|]. intros e. by apply inner_insideFits.
    - destruct rest as [|[r' p'] rest]; [done|].
      cbn [within adjacent] in *. rewrite length_app. cbn [length]. lia.
    - unfold remaining. by rewrite drop_0.
    - unfold cs. cbn [length]. lia. }
  etransitivity; [apply List.filter_length_le|].
  unfold pending in Hcount.
  destruct (truthy cur'); rewrite ?length_app; cbn [length]; lia.
Qed.

Lemma rechunk_stable_witness :
  length (splitTextIntoChunks
            (rejoin (splitTextIntoChunks
                       (str "One two. Three four five! Six?") 12)) 12)
  <= length (splitTextIntoChunks (str "One two. Three four five! Six?") 12).
Proof.
  apply (rechunk_stable (str "One two. Three four five! Six?") 12).
  - lia.
  - reflexivity.
Defined.

End Rechunk.

Module AveragingExamples.
Import Heap Averaging.
Local Open Scope float_scope.

Example average_two :
  returned (averageEmbeddings [1%positive; 2%positive]
              (<[1%positive := [1; 2; 3]]>
                 (<[2%positive := [3; 4; 5]]> ∅)))
  = Some [2; 3; 4].
Proof. vm_compute. reflexivity. Qed.

End AveragingExamples.

(** ** The loops of [averageEmbeddings] as array updates *)

Module AveragingLoops.
Import Heap Averaging.
Section AveragingLoops.
Context {num : Type} `{Arith num}.

(** [for (i = start; i < start + count; i++) acc[i] = g(i, acc[i])] on the
    array itself. *)
Definition updateRange (g : nat -> num -> num) (start count : nat)
    (acc : list num) : list num :=
  fold_left (fun acc j => <[j := g j (toNumber (acc !! j))]> acc)
    (seq start count) acc.

Lemma updateRange_length g count : forall start acc,
  length (updateRange g start count acc) = length acc.
Proof.
  unfold updateRange.
  induction count as [|count IH]; intros start acc; [reflexivity|].
  cbn [seq fold_left]. rewrite IH. apply length_insert.
Qed.

Lemma updateRange_lookup g count : forall start acc k,
  (start + count <= length acc)%nat ->
  updateRange g start count acc !! k
  = if decide (start <= k < start + count)%nat
    then Some (g k (toNumber (acc !! k)))
    else acc !! k.
Proof.
  unfold updateRange.
  induction count as [|count IH]; intros start acc k Hlen.
  - cbn. case_decide; [lia|reflexivity].
  - cbn [seq fold_left]. rewrite IH by (rewrite length_insert; lia).
    destruct (decide (k = start)) as [->|Hne].
    + rewrite list_lookup_insert_eq by lia.
      repeat case_decide; try lia. reflexivity.
    + rewrite list_lookup_insert_ne by congruence.
      repeat case_decide; try lia; reflexivity.
Qed.

(** A loop whose body rewrites one element of [averaged], and keeps a
    property [inv] of the heap that no write to [averaged] disturbs. *)
Lemma forRange_update (averaged : positive) (body : nat -> M unit)
    (g : nat -> num -> num) (inv : gmap positive (list num) -> Prop) :
  (forall j acc h,
      h !! averaged = Some acc -> (j < length acc)%nat -> inv h ->
      body j h
      = Some (tt, <[averaged := <[j := g j (toNumber (acc !! j))]> acc]> h)) ->
  (forall h acc, inv h -> inv (<[averaged := acc]> h)) ->
  forall count start acc h,
    h !! averaged = Some acc -> (start + count <= length acc)%nat -> inv h ->
    forRange start count body h
    = Some (tt, <[averaged := updateRange g start count acc]> h).
Proof.
  intros Hbody Hinv. induction count as [|count IH]; intros start acc h Ha Hlen Hh.
  - cbn. unfold ret. by rewrite insert_id.
  - cbn [forRange]. unfold bind at 1.
    rewrite (Hbody start acc h Ha ltac:(lia) Hh).
    rewrite (IH (S start) (<[start := g start (toNumber (acc !! start))]> acc)).
    + by rewrite insert_insert_eq.
    + apply lookup_insert_eq.
    + rewrite length_insert. lia.
    + by apply Hinv.
Qed.

(** The inner loop of the accumulation: [averaged[i] += embedding[i]]. *)
Lemma accumulate_run (averaged embedding : positive) (v acc : list num)
    (h : gmap positive (list num)) :
  embedding <> averaged ->
  h !! embedding = Some v ->
  h !! averaged = Some acc ->
  forRange 0 (length acc) (fun i =>
    let* a := read averaged i in
    let* x := read embedding i in
    write averaged i (add (toNumber a) (toNumber x))) h
  = Some (tt, <[averaged :=
                  updateRange (fun i a => add a (toNumber (v !! i)))
                    0 (length acc) acc]> h).
Proof.
  intros Hne Hv Ha.
  apply (forRange_update averaged _ _ (fun h => h !! embedding = Some v));
    [| |done|lia|done].
  - intros j acc' h' Ha' Hj Hv'. unfold bind, read, write.
    rewrite Ha', Hv', Ha'. by rewrite decide_True.
  - intros h' acc' Hv'. by rewrite lookup_insert_ne.
Qed.

(** The division loop: [averaged[i] /= n]. *)
Lemma divide_run (averaged : positive) (n : num) (acc : list num)
    (h : gmap positive (list num)) :
  h !! averaged = Some acc ->
  forRange 0 (length acc) (fun i =>
    let* a := read averaged i in
    write averaged i (div (toNumber a) n)) h
  = Some (tt, <[averaged :=
                  updateRange (fun _ a => div a n) 0 (length acc) acc]> h).
Proof.
  intros Ha.
  apply (forRange_update averaged _ _ (fun _ => True)); [|done|done|lia|done].
  intros j acc' h' Ha' Hj _. unfold bind, read, write.
  rewrite Ha', Ha'. by rewrite decide_True.
Qed.

(** The accumulator after the vectors [vs] have been added to it. *)
Definition accumulate (d : nat) (vs : list (list num)) (acc : list num)
    : list num :=
  fold_left
    (fun acc v => updateRange (fun i a => add a (toNumber (v !! i))) 0 d acc)
    vs acc.

Lemma accumulate_length d vs : forall acc,
  length (accumulate d vs acc) = length acc.
Proof.
  unfold accumulate. induction vs as [|v vs IH]; intros acc; [reflexivity|].
  cbn [fold_left]. rewrite IH. apply updateRange_length.
Qed.

Lemma accumulate_run_all (averaged : positive) (d : nat)
    (refs : list positive) : forall (vs : list (list num)) acc h,
  Forall2 (fun r v => r <> averaged /\ h !! r = Some v) refs vs ->
  h !! averaged = Some acc ->
  length acc = d ->
  forOf refs (fun embedding =>
    forRange 0 d (fun i =>
      let* a := read averaged i in
      let* x := read embedding i in
      write averaged i (add (toNumber a) (toNumber x)))) h
  = Some (tt, <[averaged := accumulate d vs acc]> h).
Proof.
  induction refs as [|r refs IH]; intros vs acc h Hrefs Ha Hd.
  - apply Forall2_nil_inv_l in Hrefs as ->. cbn. unfold ret.
    by rewrite insert_id.
  - apply Forall2_cons_inv_l in Hrefs as (v & vs' & [Hne Hv] & Hrest & ->).
    cbn [forOf]. unfold bind at 1. subst d.
    rewrite (accumulate_run averaged r v acc h) by done.
    set (acc1 := updateRange _ 0 (length acc) acc).
    assert (length acc1 = length acc) as Hlen1 by apply updateRange_length.
    rewrite (IH vs' acc1 (<[averaged := acc1]> h)); [| |apply lookup_insert_eq|done].
    + by rewrite insert_insert_eq.
    + eapply Forall2_impl; [exact Hrest|]. cbn. intros r' v' [Hne' Hr'].
      by rewrite lookup_insert_ne.
Qed.

Lemma accumulate_lookup d vs : forall acc k x,
  length acc = d ->
  acc !! k = Some x ->
  accumulate d vs acc !! k = Some (fold_left add (column k vs) x).
Proof.
  unfold accumulate.
  induction vs as [|v vs IH]; intros acc k x Hd Hk; [exact Hk|].
  cbn [fold_left column fmap list_fmap].
  apply IH; [by rewrite updateRange_length|].
  rewrite updateRange_lookup by lia.
  apply lookup_lt_Some in Hk as Hlt.
  rewrite decide_True by lia. by rewrite Hk.
Qed.

Lemma averaged_is_meanVector (first : list num) (rest : list (list num)) :
  updateRange
    (fun _ a => div a (ofLength (length (first :: rest))))
    0 (length first)
    (accumulate (length first) (first :: rest)
       (replicate (length first) zero))
  = meanVector (first :: rest).
Proof.
  set (vs := first :: rest). set (d := length first).
  set (acc := accumulate d vs (replicate d zero)).
  assert (length acc = d) as Hacc.
  { unfold acc. by rewrite accumulate_length, length_replicate. }
  apply list_eq. intros k.
  rewrite updateRange_lookup by lia.
  unfold meanVector, vs. fold vs. fold d. rewrite list_lookup_fmap.
  destruct (decide (k < d)%nat) as [Hk|Hk].
  - rewrite decide_True by lia. rewrite lookup_seq_lt by done.
    assert (acc !! k = Some (total (column k vs))) as ->; [|reflexivity].
    apply (accumulate_lookup d vs (replicate d zero) k zero);
      [apply length_replicate|by apply lookup_replicate_2].
  - rewrite decide_False by lia. rewrite lookup_seq_ge by lia.
    apply lookup_ge_None. lia.
Qed.

(** With two vectors or more, the call allocates one new array, fills it
    with the means, and leaves every array of the caller as it was. *)
Lemma averageEmbeddings_runs (refs : list positive) (vs : list (list num))
    (h : gmap positive (list num)) :
  Forall2 (fun r v => h !! r = Some v) refs vs ->
  (2 <= length refs)%nat ->
  averageEmbeddings refs h
  = Some (fresh (dom h), <[fresh (dom h) := meanVector vs]> h).
Proof.
  intros Hrefs Hlen.
  destruct refs as [|r0 [|r1 refs]]; cbn in Hlen; [lia|lia|].
  assert (length (r0 :: r1 :: refs) = length vs) as Hn
    by (eapply Forall2_length; exact Hrefs).
  pose proof Hrefs as Hall.
  apply Forall2_cons_inv_l in Hrefs as (v0 & vs' & Hv0 & _ & ->).
  unfold averageEmbeddings. unfold bind at 1. unfold arrayLength.
  rewrite Hv0. unfold bind at 1. unfold alloc.
  set (a := fresh (dom h)). set (d := length v0).
  set (h1 := <[a := replicate d zero]> h).
  assert (h !! a = None) as Hfresh
    by (apply not_elem_of_dom, is_fresh).
  unfold bind at 1.
  rewrite (accumulate_run_all a d (r0 :: r1 :: refs) (v0 :: vs')
             (replicate d zero) h1);
    [| |apply lookup_insert_eq|apply length_replicate].
  2:{ eapply Forall2_impl; [exact Hall|]. cbn. intros r v Hr.
      assert (r <> a) by congruence.
      split; [done|]. unfold h1. by rewrite lookup_insert_ne. }
  set (acc := accumulate d (v0 :: vs') (replicate d zero)).
  assert (length acc = d) as Hacc
    by (unfold acc; by rewrite accumulate_length, length_replicate).
  unfold bind at 1. rewrite <- Hacc at 1.
  rewrite (divide_run a _ acc (<[a := acc]> h1))
    by apply lookup_insert_eq.
  unfold ret, h1. rewrite !insert_insert_eq. rewrite Hacc, Hn.
  unfold acc, d. by rewrite averaged_is_meanVector.
Qed.

End AveragingLoops.
End AveragingLoops.

(** ** Properties of [averageEmbeddings] *)

Module AveragingFacts.
Import Heap Averaging AveragingLoops.

(** C6: on the empty sequence the call returns a new, empty array; it does
    not throw, and it leaves the heap of the caller as it was. *)
Theorem averageEmbeddings_empty {num : Type} `{Arith num}
    (h : gmap positive (list num)) :
  exists r,
    averageEmbeddings [] h = Some (r, <[r := []]> h)
    /\ h !! r = None
    /\ returned (averageEmbeddings [] h) = Some [].
Proof.
  exists (fresh (dom h)). repeat split.
  - apply not_elem_of_dom, is_fresh.
  - cbn. apply lookup_insert_eq.
Qed.

(** C4: on a single vector the call returns the reference it was given and
    changes nothing in the heap: the result is the caller's vector itself,
    with the elements it had. *)
Theorem averageEmbeddings_single {num : Type} `{Arith num}
    (v : positive) (h : gmap positive (list num)) :
  averageEmbeddings [v] h = Some (v, h)
  /\ returned (averageEmbeddings [v] h) = h !! v.
Proof. split; reflexivity. Qed.

(** C8: for a non-empty input the returned vector has the length of the
    first input vector, whatever the lengths of the others. *)
Theorem averageEmbeddings_length {num : Type} `{Arith num}
    (refs : list positive) (first : list num) (rest : list (list num))
    (h : gmap positive (list num)) :
  Forall2 (fun r v => h !! r = Some v) refs (first :: rest) ->
  exists out,
    returned (averageEmbeddings refs h) = Some out
    /\ length out = length first.
Proof.
  intros Hrefs. destruct rest as [|second rest].
  - apply Forall2_cons_inv_r in Hrefs as (r & refs' & Hr & Hnil & ->).
    apply Forall2_nil_inv_r in Hnil as ->.
    exists first. split; [exact Hr|reflexivity].
  - assert (2 <= length refs)%nat as Hlen.
    { apply Forall2_length in Hrefs. cbn in Hrefs. lia. }
    rewrite (averageEmbeddings_runs refs _ h Hrefs Hlen).
    eexists. split; [apply lookup_insert_eq|].
    cbn [meanVector]. by rewrite length_fmap, length_seq.
Qed.

Lemma averageEmbeddings_length_witness :
  exists out : list float,
    returned (averageEmbeddings [1%positive; 2%positive]
                (<[1%positive := [1%float; 2%float]]>
                   (<[2%positive := [3%float]]> ∅))) = Some out
    /\ length out = 2%nat.
Proof.
  apply (averageEmbeddings_length [1%positive; 2%positive]
           [1%float; 2%float] [[3%float]]).
  repeat constructor.
Defined.

(** C3: for two or more vectors of one length [d], the returned vector has
    length [d], and its component at each index [i] is the sum of the
    components of the inputs at [i], accumulated from [0] in input order,
    divided by the number of inputs.  On [[1,2,3],[3,4,5]] in binary64
    arithmetic the result is [2,3,4]. *)
Theorem averageEmbeddings_mean :
  (forall (num : Type) (A : Arith num) (refs : list positive)
          (vs : list (list num)) (d : nat) (h : gmap positive (list num)),
      Forall2 (fun r v => h !! r = Some v) refs vs ->
      (2 <= length vs)%nat ->
      Forall (fun v => length v = d) vs ->
      exists out,
        returned (averageEmbeddings refs h) = Some out
        /\ length out = d
        /\ forall i, (i < d)%nat ->
             exists xs,
               Forall2 (fun v x => v !! i = Some x) vs xs
               /\ out !! i
                  = Some (div (total xs) (ofLength (length vs))))
  /\ returned (averageEmbeddings [1%positive; 2%positive]
                 (<[1%positive := [1%float; 2%float; 3%float]]>
                    (<[2%positive := [3%float; 4%float; 5%float]]> ∅)))
     = Some [2%float; 3%float; 4%float].
Proof.
  split; [|vm_compute; reflexivity].
  intros num A refs vs d h Hrefs Hlen Hd.
  assert (2 <= length refs)%nat as Hlen'
    by (apply Forall2_length in Hrefs; lia).
  rewrite (averageEmbeddings_runs refs vs h Hrefs Hlen').
  exists (meanVector vs). split; [apply lookup_insert_eq|].
  destruct vs as [|first rest]; [cbn in Hlen; lia|].
  assert (length first = d) as Hfirst by (by inversion Hd).
  cbn [meanVector]. split; [by rewrite length_fmap, length_seq|].
  intros i Hi. exists (column i (first :: rest)). split.
  - unfold column. apply Forall2_fmap_r, Forall_Forall2_diag.
    eapply Forall_impl; [exact Hd|]. cbn. intros v Hv.
    destruct (lookup_lt_is_Some_2 v i) as [x Hx]; [lia|]. by rewrite Hx.
  - rewrite list_lookup_fmap, lookup_seq_lt by lia. reflexivity.
Qed.

Lemma averageEmbeddings_mean_witness :
  exists out : list float,
    returned (averageEmbeddings [1%positive; 2%positive]
                (<[1%positive := [1%float; 2%float; 3%float]]>
                   (<[2%positive := [3%float; 4%float; 5%float]]> ∅)))
    = Some out
    /\ length out = 3%nat
    /\ forall i, (i < 3)%nat ->
         exists xs,
           Forall2 (fun v x => v !! i = Some x)
             [[1%float; 2%float; 3%float]; [3%float; 4%float; 5%float]] xs
           /\ out !! i = Some (div (total xs) (ofLength 2)).
Proof.
  apply (proj1 averageEmbeddings_mean float _ [1%positive; 2%positive]
           [[1%float; 2%float; 3%float]; [3%float; 4%float; 5%float]] 3%nat).
  - repeat constructor.
  - cbn. lia.
  - repeat constructor.
Defined.

End AveragingFacts.

(** ** Order of the input vectors *)

Module AveragingOrder.
Import Heap Averaging AveragingLoops.

(** Three vectors of one component, whose sum cancels. *)
Definition cancellingHeap : gmap positive (list float) :=
  <[1%positive := [1e16%float]]>
    (<[2%positive := [(-1e16)%float]]> (<[3%positive := [1%float]]> ∅)).

(** C5 as stated fails: in binary64 arithmetic the sum depends on the
    order of the terms.  [1e16 + -1e16 + 1] is [1], while
    [1 + 1e16 + -1e16] is [0], the [1] being lost when it is added to
    [1e16].  So the three vectors average to a third in one order and to
    zero in another. *)
Lemma averageEmbeddings_order_float :
  [1; 2; 3]%positive ≡ₚ [3; 1; 2]%positive
  /\ Forall (fun r => exists v,
               cancellingHeap !! r = Some v /\ length v = 1%nat)
       [1; 2; 3]%positive
  /\ returned (averageEmbeddings [1; 2; 3]%positive cancellingHeap)
     = Some [(1 / 3)%float]
  /\ returned (averageEmbeddings [3; 1; 2]%positive cancellingHeap)
     = Some [0%float]
  /\ returned (averageEmbeddings [1; 2; 3]%positive cancellingHeap)
     <> returned (averageEmbeddings [3; 1; 2]%positive cancellingHeap).
Proof.
  split_and!.
  - symmetry. apply (Permutation_cons_append [1%positive; 2%positive]).
  - repeat constructor; eexists; split; reflexivity.
  - vm_compute. reflexivity.
  - vm_compute. reflexivity.
  - vm_compute. intros E. discriminate E.
Qed.

Section Exact.
Context {num : Type} `{Arith num}.
Hypothesis add_comm : forall x y : num, add x y = add y x.
Hypothesis add_assoc : forall x y z : num, add (add x y) z = add x (add y z).

Lemma fold_left_add_perm (xs ys : list num) :
  xs ≡ₚ ys -> forall z, fold_left add xs z = fold_left add ys z.
Proof.
  induction 1 as [|x xs ys _ IH|x y xs|xs ys zs _ IH1 _ IH2]; intros z.
  - reflexivity.
  - cbn. apply IH.
  - cbn. f_equal. rewrite !add_assoc. f_equal. apply add_comm.
  - by rewrite IH1.
Qed.

Lemma mean_perm (vs vs' : list (list num)) (i : nat) :
  vs ≡ₚ vs' -> mean vs i = mean vs' i.
Proof.
  intros Hp. unfold mean, total, column.
  rewrite (fold_left_add_perm _ ((fun v => toNumber (v !! i)) <$> vs'))
    by (by apply fmap_Permutation).
  by rewrite (Permutation_length Hp).
Qed.

Lemma meanVector_perm (vs vs' : list (list num)) (d : nat) :
  vs ≡ₚ vs' -> Forall (fun v => length v = d) vs ->
  meanVector vs = meanVector vs'.
Proof.
  intros Hp Hd.
  assert (Forall (fun v => length v = d) vs') as Hd'
    by (by rewrite <- Hp).
  destruct vs as [|v vs], vs' as [|v' vs'].
  - reflexivity.
  - by apply Permutation_nil_cons in Hp.
  - symmetry in Hp. by apply Permutation_nil_cons in Hp.
  - cbn [meanVector].
    replace (length v') with (length v)
      by (inversion Hd; inversion Hd'; congruence).
    apply list_fmap_ext. intros _ i _. by apply mean_perm.
Qed.

End Exact.

(** The arrays a list of references names. *)
Definition deref {num : Type} (h : gmap positive (list num))
    (refs : list positive) : list (list num) :=
  (fun r => default [] (h !! r)) <$> refs.

Lemma deref_Forall2 {num : Type} (h : gmap positive (list num))
    (refs : list positive) (d : nat) :
  Forall (fun r => exists v, h !! r = Some v /\ length v = d) refs ->
  Forall2 (fun r v => h !! r = Some v) refs (deref h refs)
  /\ Forall (fun v => length v = d) (deref h refs).
Proof.
  unfold deref. induction 1 as [|r refs (v & Hv & Hd) _ [IH1 IH2]].
  - split; constructor.
  - cbn [fmap list_fmap]. rewrite Hv. cbn. split; by constructor.
Qed.

(** What the specification has in mind: were the addition of the numbers
    commutative and associative, as it is in exact arithmetic, the average
    of vectors of one length would not depend on their order.  The
    addition of the program, on binary64 numbers, is not associative. *)
Lemma averageEmbeddings_order_exact {num : Type} `{Arith num}
    (refs refs' : list positive) (d : nat) (h : gmap positive (list num)) :
  (forall x y : num, add x y = add y x) ->
  (forall x y z : num, add (add x y) z = add x (add y z)) ->
  Forall (fun r => exists v, h !! r = Some v /\ length v = d) refs ->
  refs ≡ₚ refs' ->
  exists out,
    returned (averageEmbeddings refs h) = Some out
    /\ returned (averageEmbeddings refs' h) = Some out.
Proof.
  intros Hcomm Hassoc Hrefs Hp.
  assert (Forall (fun r => exists v, h !! r = Some v /\ length v = d) refs')
    as Hrefs' by (by rewrite <- Hp).
  destruct (deref_Forall2 h refs d Hrefs) as [Hvs Hd].
  destruct (deref_Forall2 h refs' d Hrefs') as [Hvs' _].
  destruct (decide (2 <= length refs)%nat) as [Hlen|Hlen].
  - assert (2 <= length refs')%nat as Hlen'
      by (by rewrite <- (Permutation_length Hp)).
    rewrite (averageEmbeddings_runs refs _ h Hvs Hlen).
    rewrite (averageEmbeddings_runs refs' _ h Hvs' Hlen').
    exists (meanVector (deref h refs)). cbn [returned].
    rewrite !lookup_insert_eq. split; [reflexivity|]. f_equal. symmetry.
    apply (meanVector_perm Hcomm Hassoc _ _ d);
      [by apply fmap_Permutation|exact Hd].
  - destruct refs as [|r [|r' refs]]; [| |cbn in Hlen; lia].
    + apply Permutation_nil in Hp. subst refs'.
      exists []. split; apply lookup_insert_eq.
    + apply Permutation_length_1_inv in Hp. subst refs'.
      inversion Hrefs as [|? ? (v & Hv & _) _]; subst.
      exists v. by split.
Qed.

Definition exactHeap : gmap positive (list Qcanon.Qc) :=
  let q (n : Z) := Qcanon.Q2Qc (QArith_base.inject_Z n) in
  <[1%positive := [q 1; q 2]]>
    (<[2%positive := [q 3; q 5]]> (<[3%positive := [q 8; q 2]]> ∅)).

Lemma averageEmbeddings_order_exact_witness :
  exists out,
    returned (averageEmbeddings [1; 2; 3]%positive exactHeap) = Some out
    /\ returned (averageEmbeddings [3; 1; 2]%positive exactHeap) = Some out.
Proof.
  apply (averageEmbeddings_order_exact [1; 2; 3]%positive [3; 1; 2]%positive
           2%nat).
  - exact Qcanon.Qcplus_comm.
  - intros x y z. symmetry. apply Qcanon.Qcplus_assoc.
  - repeat constructor; eexists; split; reflexivity.
  - symmetry. apply (Permutation_cons_append [1; 2]%positive).
Defined.

End AveragingOrder.

(** ** Properties of [generateEmbeddings] *)

Module ServiceFacts.
Import JSString Chunking Heap Averaging Service.

(** C7: when the text passes the guard, chunking gives exactly one chunk
    and the provider answers with a vector, [generateEmbeddings] returns
    the very array that holds the provider's vector: nothing is averaged,
    no other array is allocated, and the arrays of the caller are
    untouched. *)
Theorem generateEmbeddings_single_chunk {num : Type} `{Arith num}
    (provider : Type)
    (create : list N -> provider -> (list N + list num) * provider)
    (text chunk : list N) (embedding : list num)
    (h : gmap positive (list num)) (p p' : provider) :
  truthy text = true ->
  trim text <> [] ->
  splitTextIntoChunks text 8000 = [chunk] ->
  create chunk p = (inr embedding, p') ->
  exists r,
    h !! r = None
    /\ generateEmbeddings provider create text h p
       = Some (Return (Ref r), <[r := embedding]> h, p').
Proof.
  intros Htext Htrim Hchunks Hcreate.
  exists (fresh (dom h)). split; [apply not_elem_of_dom, is_fresh|].
  unfold generateEmbeddings. rewrite Htext.
  destruct (trim text) as [|c t] eqn:E; [done|]. cbn [negb orb length Nat.eqb].
  rewrite Hchunks. cbn [embedChunks]. rewrite Hcreate. reflexivity.
Qed.

(** A provider that answers every chunk with the same vector. *)
Definition constantProvider (chunk : list N) (p : unit)
    : (list N + list float) * unit :=
  (inr [1%float; 2%float], tt).

Lemma generateEmbeddings_single_chunk_witness :
  exists r,
    (∅ : gmap positive (list float)) !! r = None
    /\ generateEmbeddings unit constantProvider (str "hello") ∅ tt
       = Some (Return (Ref r), <[r := [1%float; 2%float]]> ∅, tt).
Proof.
  apply (generateEmbeddings_single_chunk unit constantProvider
           (str "hello") (str "hello.")).
  - reflexivity.
  - discriminate.
  - vm_compute. reflexivity.
  - reflexivity.
Defined.

End ServiceFacts.

(** * Part III: further properties of the chunker and the aggregator *)

(** ** Invariants of the two loops of [splitTextIntoChunks]

    Every chunk is [trim] of a buffer at the moment it is pushed.  The
    lemmas below carry a property of the buffers through the word loop and
    the sentence loop, given that it holds of the empty buffer, of a lone
    piece, and of a buffer to which a piece has been appended after the
    length test. *)

Module ChunkerInvariant.
Import JSString JSStringFacts Chunking ChunkingBounds Located Rechunk.

Section Invariant.
Variable n : Z.
(** [Sen] holds of the sentences, [Wd] of the words, [Buf] and [WBuf] of
    the two buffers, [Chk] of the chunks. *)
Variables Sen Wd Buf WBuf Chk : list N -> Prop.

Hypothesis word_start : WBuf [].
Hypothesis word_alone : forall w, Wd w -> WBuf w.
Hypothesis word_joined : forall wc w,
  WBuf wc -> Wd w -> exceeds (wc ++ [space] ++ w) n = false ->
  WBuf (wc ++ [space] ++ w).
Hypothesis word_pushed : forall wc, WBuf wc -> Chk (trim wc).
Hypothesis words_of_sentence : forall s, Sen s -> Forall Wd (splitSpaces s).

Lemma wordStep_invariant (words : list (list N)) :
  forall chunks wc,
    Forall Wd words -> Forall Chk chunks -> WBuf wc ->
    Forall Chk (fold_left (wordStep n) words (chunks, wc)).1
    /\ WBuf (fold_left (wordStep n) words (chunks, wc)).2.
Proof.
  induction words as [|word words IH]; intros chunks wc Hwords Hchunks Hwc;
    [done|].
  apply Forall_cons in Hwords as [Hword Hwords].
  cbn [fold_left]. unfold wordStep at 2 4.
  destruct (exceeds _ n) eqn:Hover; [destruct (truthy wc)|]; apply IH;
    try done; auto.
  apply Forall_app. split; [done|]. constructor; [auto|constructor].
Qed.

Lemma splitByWords_invariant (chunks : list (list N)) (s : list N) :
  Sen s -> Forall Chk chunks -> Forall Chk (splitByWords n chunks s).
Proof.
  intros Hs Hchunks. unfold splitByWords.
  destruct (wordStep_invariant (splitSpaces s) chunks []
              (words_of_sentence s Hs) Hchunks word_start) as [H1 H2].
  destruct (fold_left _ _ _) as [chunks' wc]. cbn [fst snd] in *.
  destruct (truthy wc); [|done].
  apply Forall_app. split; [done|]. constructor; [auto|constructor].
Qed.

Hypothesis buffer_start : Buf [].
Hypothesis buffer_alone : forall s, Sen s -> Buf s.
Hypothesis buffer_joined : forall cur s,
  Buf cur -> Sen s -> exceeds (cur ++ s) n = false ->
  Buf (cur ++ s ++ [full_stop]).
Hypothesis buffer_pushed : forall cur, Buf cur -> Chk (trim cur).

Lemma sentenceStep_invariant (sentences : list (list N)) :
  forall chunks cur,
    Forall Sen sentences -> Forall Chk chunks -> Buf cur ->
    Forall Chk (fold_left (sentenceStep n) sentences (chunks, cur)).1
    /\ Buf (fold_left (sentenceStep n) sentences (chunks, cur)).2.
Proof.
  induction sentences as [|s sentences IH];
    intros chunks cur Hsent Hchunks Hcur; [done|].
  apply Forall_cons in Hsent as [Hs Hsent].
  cbn [fold_left]. unfold sentenceStep at 2 4.
  destruct (exceeds _ n) eqn:Hover; [destruct (truthy cur)|]; apply IH;
    try done; auto.
  - apply Forall_app. split; [done|]. constructor; [auto|constructor].
  - by apply splitByWords_invariant.
Qed.

Lemma filter_Forall (chunks : list (list N)) :
  Forall Chk chunks ->
  Forall Chk (List.filter (fun chunk => (0 <? length chunk)%nat) chunks).
Proof.
  induction 1 as [|c chunks Hc _ IH]; [constructor|].
  destruct c; cbn; [done|by constructor].
Qed.

Lemma splitTextIntoChunks_invariant (text : list N) :
  Forall Sen (splitSentences text) ->
  Forall Chk (splitTextIntoChunks text n).
Proof.
  intros Hsent. unfold splitTextIntoChunks.
  destruct (sentenceStep_invariant (splitSentences text) [] [] Hsent
              ltac:(constructor) buffer_start) as [H1 H2].
  destruct (fold_left _ _ _) as [chunks cur]. cbn [fst snd] in *.
  apply filter_Forall. destruct (truthy cur); [|done].
  apply Forall_app. split; [done|]. constructor; [auto|constructor].
Qed.

End Invariant.

End ChunkerInvariant.

(** ** What every chunk looks like *)

Module ChunkShape.
Import JSString JSStringFacts Chunking ChunkingBounds Located Rechunk.
Import ChunkerInvariant.

(** The pieces of [splitSentences] hold no terminator, and hold only code
    units of the text. *)
Lemma splitSentences_pieces (text : list N) :
  Forall (fun piece => Forall (fun ch => ch ∈ text /\ isTerminator ch = false)
                         piece)
    (splitSentences text).
Proof.
  destruct (locate_structure text)
    as (first & rest & post & Hloc & Htext & Hfirst & _ & _ & _ & Hin).
  rewrite <- locate_pieces, Hloc. cbn [fmap list_fmap snd]. constructor.
  - apply Forall_forall. intros ch Hch. split.
    + rewrite Htext. set_solver.
    + by apply (proj1 (Forall_forall _ _) Hfirst).
  - apply Forall_fmap. eapply Forall_impl; [exact Hin|].
    intros [r piece] (pre & t & post' & E & _ & _ & Hplain). cbn in *.
    apply Forall_forall. intros ch Hch. split.
    + rewrite E. set_solver.
    + by apply (proj1 (Forall_forall _ _) Hplain).
Qed.

(** The words of [splitSpaces] hold no space, and hold only code units of
    the sentence. *)
Lemma splitSpaces_words (P : N -> Prop) (s : list N) :
  Forall P s ->
  Forall (Forall (fun ch => P ch /\ ch <> space)) (splitSpaces s).
Proof.
  induction 1 as [|c s Hc _ IH]; [by repeat constructor|].
  cbn [splitSpaces]. destruct (N.eqb_spec c space) as [->|Hne].
  - by constructor.
  - destruct (splitSpaces s) as [|word rest]; [by repeat constructor|].
    apply Forall_cons in IH as [Hword Hrest]. by repeat constructor.
Qed.

Lemma trim_Forall (P : N -> Prop) (s : list N) :
  Forall P s -> Forall P (trim s).
Proof.
  intros Hs. destruct (trim_infix s) as (w1 & w2 & E). rewrite E in Hs.
  apply Forall_app in Hs as [_ Hs]. by apply Forall_app in Hs as [Hs _].
Qed.

Lemma trim_length (s : list N) : (length (trim s) <= length s)%nat.
Proof.
  destruct (trim_infix s) as (w1 & w2 & E). rewrite E at 2.
  rewrite !length_app. lia.
Qed.

(** *** [trim] is idempotent *)

Lemma trimStart_fixed (s : list N) :
  trimStart s = s <->
  match s with [] => True | c :: _ => isWhiteSpace c = false end.
Proof.
  destruct s as [|c s]; [done|]. cbn.
  destruct (isWhiteSpace c) eqn:Hc; [|done]. split; [|done].
  intros E. destruct (trimStart_suffix s) as [w Hw].
  assert (length (trimStart s) = S (length s)) as Hlen by (by rewrite E).
  rewrite Hw in Hlen at 2. rewrite length_app in Hlen. lia.
Qed.

Lemma trimStart_idempotent (s : list N) :
  trimStart (trimStart s) = trimStart s.
Proof.
  induction s as [|c s IH]; [done|]. cbn.
  destruct (isWhiteSpace c) eqn:Hc; [done|]. cbn. by rewrite Hc.
Qed.

Lemma trimEnd_prefix (s : list N) : exists w, s = trimEnd s ++ w.
Proof.
  unfold trimEnd. destruct (trimStart_suffix (rev s)) as [w Hw].
  exists (rev w). by rewrite <- rev_app_distr, <- Hw, rev_involutive.
Qed.

Lemma trimStart_trimEnd (s : list N) :
  trimStart s = s -> trimStart (trimEnd s) = trimEnd s.
Proof.
  intros Hs. apply trimStart_fixed.
  destruct (trimEnd_prefix s) as [w Hw].
  destruct (trimEnd s) as [|c t]; [done|].
  rewrite Hw in Hs. by apply trimStart_fixed in Hs.
Qed.

Lemma trim_idempotent (s : list N) : trim (trim s) = trim s.
Proof.
  unfold trim.
  rewrite (trimStart_trimEnd (trimStart s) (trimStart_idempotent s)).
  unfold trimEnd. by rewrite rev_involutive, trimStart_idempotent.
Qed.

(** X1: whatever the text and the bound, a chunk that holds a sentence
    terminator ends with the full stop the chunker appended and has at
    most [maxChunkSize + 1] code units; any other chunk holds no
    terminator at all. *)
Theorem chunk_with_terminator_bounded (text : list N) (maxChunkSize : Z) :
  Forall (fun chunk =>
            noTerminator chunk
            \/ exists body,
                 chunk = body ++ [full_stop]
                 /\ Z.of_nat (length body) <= maxChunkSize)
    (splitTextIntoChunks text maxChunkSize).
Proof.
  apply (splitTextIntoChunks_invariant maxChunkSize
           noTerminator noTerminator (shaped maxChunkSize) noTerminator).
  - constructor.
  - done.
  - intros wc w Hwc Hw _. apply Forall_app. split; [done|].
    apply Forall_app. split; [by repeat constructor|done].
  - intros wc Hwc. left. by apply trim_noTerminator.
  - intros s Hs. eapply Forall_impl; [apply (splitSpaces_words _ s Hs)|].
    intros w Hw. eapply Forall_impl; [exact Hw|]. by intros ch [? _].
  - left. constructor.
  - intros s Hs. by left.
  - intros cur s _ _ Hfit. right. exists (cur ++ s).
    split; [by rewrite <- app_assoc|]. by apply exceeds_false.
  - intros cur Hcur. by apply trim_shaped.
  - eapply Forall_impl; [apply splitSentences_pieces|].
    intros piece Hpiece. eapply Forall_impl; [exact Hpiece|]. by intros ch [_ ?].
Qed.

(** X2: no chunk is empty, and no chunk starts or ends with white space:
    trimming a chunk again changes nothing. *)
Theorem chunk_trimmed (text : list N) (maxChunkSize : Z) :
  Forall (fun chunk => chunk <> [] /\ trim chunk = chunk)
    (splitTextIntoChunks text maxChunkSize).
Proof.
  assert (Forall (fun chunk => trim chunk = chunk)
            (splitTextIntoChunks text maxChunkSize)) as Htrim.
  { apply (splitTextIntoChunks_invariant maxChunkSize
             (fun _ => True) (fun _ => True) (fun _ => True) (fun _ => True));
      try done.
    - intros wc _. apply trim_idempotent.
    - intros s _. apply Forall_forall. done.
    - intros cur _. apply trim_idempotent.
    - apply Forall_forall. done. }
  apply Forall_forall. intros chunk Hin. split.
  - unfold splitTextIntoChunks in Hin.
    destruct (fold_left _ _ _) as [chunks cur].
    apply list_elem_of_In, filter_In in Hin as [_ Hlen]. by destruct chunk.
  - by apply (proj1 (Forall_forall _ _) Htrim).
Qed.

(** X3: the chunker invents nothing but full stops and spaces, and lets no
    ["!"] or ["?"] through: every code unit of a chunk is a full stop, a
    space, or a code unit of the text that is not a terminator. *)
Theorem chunk_code_units (text : list N) (maxChunkSize : Z) :
  Forall (Forall (fun ch =>
            ch = full_stop \/ ch = space
            \/ (ch ∈ text /\ isTerminator ch = false)))
    (splitTextIntoChunks text maxChunkSize).
Proof.
  set (P := fun ch => ch = full_stop \/ ch = space
                      \/ (ch ∈ text /\ isTerminator ch = false)).
  apply (splitTextIntoChunks_invariant maxChunkSize
           (Forall P) (Forall P) (Forall P) (Forall P)).
  - constructor.
  - done.
  - intros wc w Hwc Hw _. apply Forall_app. split; [done|].
    apply Forall_app. split; [|done]. constructor; [|constructor].
    right. by left.
  - intros wc. apply trim_Forall.
  - intros s Hs. eapply Forall_impl; [apply (splitSpaces_words _ s Hs)|].
    intros w Hw. eapply Forall_impl; [exact Hw|]. by intros ch [? _].
  - constructor.
  - done.
  - intros cur s Hcur Hs _. apply Forall_app. split; [done|].
    apply Forall_app. split; [done|]. constructor; [by left|constructor].
  - intros cur. apply trim_Forall.
  - eapply Forall_impl; [apply splitSentences_pieces|].
    intros piece Hpiece. eapply Forall_impl; [exact Hpiece|].
    intros ch H. right. by right.
Qed.

End ChunkShape.

(** ** Texts of one sentence *)

Module SingleSentence.
Import JSString JSStringFacts Chunking ChunkingBounds Located Rechunk.
Import ChunkerInvariant ChunkShape.

Lemma noTerminator_forallb (s : list N) :
  noTerminator s -> forallb (fun c => negb (isTerminator c)) s = true.
Proof.
  induction 1 as [|c s Hc _ IH]; [done|]. cbn. by rewrite Hc, IH.
Qed.

Lemma trimStart_full_stop (g : list N) :
  trimStart (g ++ [full_stop]) = trimStart g ++ [full_stop].
Proof.
  induction g as [|c g IH]; [done|]. cbn. by destruct (isWhiteSpace c).
Qed.

Lemma trim_full_stop (g : list N) :
  trim (g ++ [full_stop]) = trimStart g ++ [full_stop].
Proof.
  unfold trim, trimEnd. rewrite trimStart_full_stop, rev_app_distr. cbn.
  by rewrite rev_involutive.
Qed.

Lemma splitSpaces_plain (s : list N) :
  Forall (fun c => c <> space) s -> splitSpaces s = [s].
Proof.
  induction 1 as [|c s Hc _ IH]; [done|]. cbn [splitSpaces].
  destruct (N.eqb_spec c space); [done|]. by rewrite IH.
Qed.

(** A text without terminators is its own and only sentence. *)
Lemma one_sentence (text : list N) :
  noTerminator text -> splitSentences text = [text].
Proof. intros H. by apply splitSentences_plain, noTerminator_forallb. Qed.

(** X4: a text without ["."], ["!"] or ["?"] that is no longer than
    [maxChunkSize] comes back as exactly one chunk: the text without its
    leading white space, followed by a full stop.  White space at the end
    of the text stays, in front of the full stop. *)
Theorem splitTextIntoChunks_fitting_sentence
    (text : list N) (maxChunkSize : Z) :
  noTerminator text ->
  Z.of_nat (length text) <= maxChunkSize ->
  splitTextIntoChunks text maxChunkSize = [trimStart text ++ [full_stop]].
Proof.
  intros Hplain Hfit. unfold splitTextIntoChunks.
  rewrite (one_sentence text Hplain). cbn [fold_left sentenceStep].
  rewrite !app_nil_l, (proj2 (exceeds_false text maxChunkSize) Hfit).
  replace (truthy (text ++ [full_stop])) with true by (by destruct text).
  rewrite trim_full_stop. by destruct (trimStart text).
Qed.

Lemma splitTextIntoChunks_fitting_sentence_witness :
  splitTextIntoChunks (str "  what is RAG ") 20 = [str "what is RAG ."].
Proof.
  apply (splitTextIntoChunks_fitting_sentence (str "  what is RAG ") 20).
  - repeat constructor.
  - cbn. lia.
Defined.

(** X5: a text that is one word, with no terminator and no space, and is
    longer than [maxChunkSize], is dropped whole: the result is empty. *)
Theorem splitTextIntoChunks_overlong_word (text : list N) (maxChunkSize : Z) :
  noTerminator text ->
  Forall (fun c => c <> space) text ->
  maxChunkSize < Z.of_nat (length text) ->
  splitTextIntoChunks text maxChunkSize = [].
Proof.
  intros Hplain Hword Hlong. unfold splitTextIntoChunks.
  rewrite (one_sentence text Hplain). cbn [fold_left sentenceStep].
  rewrite !app_nil_l. unfold exceeds at 1.
  destruct (Z.gtb_spec (Z.of_nat (length text)) maxChunkSize) as [_|]; [|lia].
  cbn [truthy]. unfold splitByWords.
  rewrite (splitSpaces_plain text Hword). cbn [fold_left wordStep].
  unfold exceeds. rewrite !length_app. cbn [length truthy].
  destruct (Z.gtb_spec (Z.of_nat (0 + (1 + length text))) maxChunkSize)
    as [_|]; [done|lia].
Qed.

Lemma splitTextIntoChunks_overlong_word_witness :
  splitTextIntoChunks (str "antidisestablishmentarianism") 10 = [].
Proof.
  apply (splitTextIntoChunks_overlong_word
           (str "antidisestablishmentarianism") 10).
  - repeat constructor.
  - repeat constructor; discriminate.
  - cbn. lia.
Defined.

(** X6: when a text without terminators is longer than [maxChunkSize], so
    that it is split by words, every chunk is within [maxChunkSize] or is
    a single word (it holds no space). *)
Theorem splitTextIntoChunks_words_bounded (text : list N) (maxChunkSize : Z) :
  noTerminator text ->
  maxChunkSize < Z.of_nat (length text) ->
  Forall (fun chunk =>
            Z.of_nat (length chunk) <= maxChunkSize
            \/ Forall (fun c => c <> space) chunk)
    (splitTextIntoChunks text maxChunkSize).
Proof.
  intros Hplain Hlong. unfold splitTextIntoChunks.
  rewrite (one_sentence text Hplain). cbn [fold_left sentenceStep].
  rewrite !app_nil_l. unfold exceeds at 1.
  destruct (Z.gtb_spec (Z.of_nat (length text)) maxChunkSize) as [_|]; [|lia].
  cbn [truthy]. apply filter_Forall.
  set (ok := fun chunk : list N =>
               Z.of_nat (length chunk) <= maxChunkSize
               \/ Forall (fun c => c <> space) chunk).
  apply (splitByWords_invariant maxChunkSize (fun _ => True)
           (Forall (fun c => c <> space)) ok ok); try done.
  - right. constructor.
  - intros w Hw. by right.
  - intros wc w _ _ Hfit. left. by apply exceeds_false.
  - intros wc [Hlen|Hword].
    + left. pose proof (trim_length wc). lia.
    + right. by apply trim_Forall.
  - intros s _.
    eapply Forall_impl;
      [apply (splitSpaces_words (fun _ => True) s), Forall_forall; done|].
    intros w Hw. eapply Forall_impl; [exact Hw|]. by intros c [_ ?].
Qed.

Lemma splitTextIntoChunks_words_bounded_witness :
  Forall (fun chunk =>
            Z.of_nat (length chunk) <= 10
            \/ Forall (fun c => c <> space) chunk)
    (splitTextIntoChunks (str "a considerably longer word list") 10).
Proof.
  apply (splitTextIntoChunks_words_bounded
           (str "a considerably longer word list") 10).
  - repeat constructor.
  - cbn. lia.
Defined.

End SingleSentence.

(** ** Texts of several sentences *)

Module SeveralSentences.
Import JSString JSStringFacts Chunking Located Rechunk SingleSentence.

(** A piece that is followed by one terminator, and not by a second one,
    is the first sentence; the rest of the text is split on its own. *)
Lemma splitSentences_app_terminator (a : list N) (t : N) (rest : list N) :
  noTerminator a ->
  isTerminator t = true ->
  match rest with [] => True | c :: _ => isTerminator c = false end ->
  splitSentences (a ++ [t] ++ rest) = a :: splitSentences rest.
Proof.
  intros Ha Ht Hrest. induction Ha as [|c a Hc _ IH].
  - cbn [app]. destruct rest as [|c' rest].
    + cbn. by rewrite Ht.
    + rewrite splitSentences_cons_terminator by done. by rewrite Hrest.
  - rewrite <- app_comm_cons.
    destruct (splitSentences_cons_plain c (a ++ [t] ++ rest) Hc)
      as (piece & rest' & E1 & E2).
    rewrite E2. rewrite IH in E1. by injection E1 as <- <-.
Qed.

(** No code unit of the string is white space. *)
Definition dense (s : list N) : Prop :=
  Forall (fun c => isWhiteSpace c = false) s.

Lemma trimStart_dense (s : list N) : dense s -> trimStart s = s.
Proof. intros Hs. destruct Hs as [|c s Hc _]; [done|]. cbn. by rewrite Hc. Qed.

Lemma trim_dense (s : list N) : dense s -> trim s = s.
Proof.
  intros Hs. unfold trim, trimEnd. rewrite (trimStart_dense s Hs).
  rewrite (trimStart_dense (rev s)); [apply rev_involutive|].
  by apply List.Forall_rev.
Qed.

(** Two sentences that do not fit in one chunk together: the first is
    closed with a full stop, the second is put out as it is. *)
Lemma two_sentences (a b : list N) (t : N) (n : Z) :
  noTerminator a -> noTerminator b ->
  isTerminator t = true ->
  trim b <> [] ->
  Z.of_nat (length a) <= n ->
  n < Z.of_nat (length a + 1 + length b) ->
  splitTextIntoChunks (a ++ [t] ++ b) n = [trimStart a ++ [full_stop]; trim b].
Proof.
  intros Ha Hb Ht Hbt Hfit Hover.
  assert (b <> []) as Hb0 by (by intros ->).
  unfold splitTextIntoChunks.
  rewrite (splitSentences_app_terminator a t b Ha Ht),
    (one_sentence b Hb).
  2:{ destruct Hb as [|c b Hc _]; done. }
  cbn [fold_left]. unfold sentenceStep at 2.
  rewrite !app_nil_l, (proj2 (exceeds_false a n) Hfit).
  rewrite sentenceStep_truthy by (by destruct a).
  unfold exceeds. rewrite !length_app. cbn [length].
  destruct (Z.gtb_spec (Z.of_nat (length a + 1 + length b)) n) as [_|]; [|lia].
  replace (truthy b) with true by (by destruct b).
  rewrite trim_full_stop. cbn [app filter].
  destruct (trimStart a ++ [full_stop]) as [|c1 g1] eqn:E1;
    [by destruct (trimStart a)|].
  destruct (trim b) as [|c2 g2] eqn:E2; [done|]. reflexivity.
Qed.

(** X16: of three sentences of which the second does not fit behind the
    first while the third fits behind the second, the second starts a
    chunk without a full stop of its own, so the third is joined to it
    directly: the boundary between the two is lost.  The terminators of
    the text are replaced by full stops. *)
Theorem splitTextIntoChunks_carried_sentence
    (a b c : list N) (t1 t2 : N) (maxChunkSize : Z) :
  noTerminator a -> noTerminator b -> noTerminator c ->
  isTerminator t1 = true -> isTerminator t2 = true ->
  b <> [] ->
  Z.of_nat (length a) <= maxChunkSize ->
  maxChunkSize < Z.of_nat (length a + 1 + length b) ->
  Z.of_nat (length b + length c) <= maxChunkSize ->
  splitTextIntoChunks (a ++ [t1] ++ b ++ [t2] ++ c) maxChunkSize
  = [trimStart a ++ [full_stop]; trimStart (b ++ c) ++ [full_stop]].
Proof.
  intros Ha Hb Hc Ht1 Ht2 Hb0 Hfit Hover Hjoin.
  unfold splitTextIntoChunks.
  rewrite (splitSentences_app_terminator a t1 (b ++ [t2] ++ c) Ha Ht1).
  2:{ destruct Hb as [|c0 b Hc0 _]; done. }
  rewrite (splitSentences_app_terminator b t2 c Hb Ht2),
    (one_sentence c Hc).
  2:{ destruct Hc as [|c0 c Hc0 _]; done. }
  cbn [fold_left]. unfold sentenceStep at 3.
  rewrite !app_nil_l, (proj2 (exceeds_false a maxChunkSize) Hfit).
  rewrite sentenceStep_truthy by (by destruct a).
  unfold exceeds at 1. rewrite !length_app. cbn [length].
  destruct (Z.gtb_spec (Z.of_nat (length a + 1 + length b)) maxChunkSize)
    as [_|]; [|lia].
  rewrite sentenceStep_truthy by done.
  rewrite (proj2 (exceeds_false (b ++ c) maxChunkSize))
    by (rewrite length_app; lia).
  replace (truthy (b ++ c ++ [full_stop])) with true by (by destruct b).
  rewrite trim_full_stop, (app_assoc b c [full_stop]), trim_full_stop.
  cbn [app filter].
  destruct (trimStart a ++ [full_stop]) as [|c1 g1] eqn:E1;
    [by destruct (trimStart a)|].
  destruct (trimStart (b ++ c) ++ [full_stop]) as [|c2 g2] eqn:E2;
    [by destruct (trimStart (b ++ c))|].
  reflexivity.
Qed.

Lemma splitTextIntoChunks_carried_sentence_witness :
  splitTextIntoChunks (str "Stop!Go on?ok") 8 = [str "Stop."; str "Go onok."].
Proof.
  apply (splitTextIntoChunks_carried_sentence
           (str "Stop") (str "Go on") (str "ok") 33%N 63%N 8).
  - repeat constructor.
  - repeat constructor.
  - repeat constructor.
  - reflexivity.
  - reflexivity.
  - discriminate.
  - cbn. lia.
  - cbn. lia.
  - cbn. lia.
Defined.

End SeveralSentences.

(** ** What becomes of the content of the text *)

Module ChunkContent.
Import JSString JSStringFacts Chunking Located Rechunk.

(** The code units that carry the content of a text: those that are
    neither white space nor terminators. *)
Definition isContent (c : N) : bool :=
  negb (isWhiteSpace c) && negb (isTerminator c).

Definition contentOf (s : list N) : list N := List.filter isContent s.

Lemma contentOf_app (s t : list N) :
  contentOf (s ++ t) = contentOf s ++ contentOf t.
Proof. apply List.filter_app. Qed.

Lemma contentOf_trimStart (s : list N) : contentOf (trimStart s) = contentOf s.
Proof.
  induction s as [|c s IH]; [done|]. cbn [trimStart].
  destruct (isWhiteSpace c) eqn:Hc; [|done].
  rewrite IH. cbn. unfold isContent. by rewrite Hc.
Qed.

Lemma contentOf_trim (s : list N) : contentOf (trim s) = contentOf s.
Proof.
  unfold trim, trimEnd, contentOf.
  rewrite filter_rev. fold (contentOf (trimStart (rev (trimStart s)))).
  rewrite contentOf_trimStart. unfold contentOf.
  rewrite filter_rev, rev_involutive. apply contentOf_trimStart.
Qed.

Lemma contentOf_terminator (c : N) (s : list N) :
  isTerminator c = true -> contentOf (c :: s) = contentOf s.
Proof.
  intros Hc. cbn. unfold isContent. rewrite Hc. by rewrite andb_false_r.
Qed.

Lemma contentOf_splitSentences (s : list N) :
  contentOf (concat (splitSentences s)) = contentOf s.
Proof.
  induction s as [|c s IH]; [done|].
  destruct (isTerminator c) eqn:Hc.
  - rewrite (contentOf_terminator c s Hc). destruct s as [|c' s].
    + by rewrite splitSentences_terminator_last.
    + rewrite splitSentences_cons_terminator by done.
      by destruct (isTerminator c').
  - destruct (splitSentences_cons_plain c s Hc) as (piece & rest & E1 & E2).
    rewrite E2. rewrite E1 in IH. cbn [concat app] in IH |- *.
    unfold contentOf in IH |- *. cbn [List.filter].
    destruct (isContent c); by rewrite IH.
Qed.

Lemma contentOf_splitSpaces (s : list N) :
  contentOf (concat (splitSpaces s)) = contentOf s.
Proof.
  induction s as [|c s IH]; [done|]. cbn [splitSpaces].
  destruct (N.eqb_spec c space) as [->|Hc].
  - cbn [concat app]. by rewrite IH.
  - unfold contentOf in IH |- *.
    destruct (splitSpaces s) as [|word rest]; cbn [concat app] in IH |- *;
      cbn [List.filter]; destruct (isContent c); by rewrite <- ?IH.
Qed.

(** The content held by the state of a loop: the chunks put out so far,
    then the buffer. *)
Definition kept (st : list (list N) * list N) : list N :=
  contentOf (concat st.1 ++ st.2).

Lemma kept_push (chunks : list (list N)) (buffer next : list N) :
  kept (chunks ++ [trim buffer], next)
  = kept (chunks, buffer) ++ contentOf next.
Proof.
  unfold kept. cbn [fst snd].
  by rewrite concat_app, !contentOf_app, concat_cons, concat_nil, app_nil_r,
    contentOf_trim.
Qed.

Lemma wordStep_kept (n : Z) (words : list (list N)) :
  forall st,
    kept (fold_left (wordStep n) words st)
    `sublist_of` kept st ++ contentOf (concat words).
Proof.
  induction words as [|w words IH]; intros [chunks wc].
  - cbn [fold_left concat]. by rewrite app_nil_r.
  - cbn [fold_left concat]. etrans; [apply IH|].
    rewrite contentOf_app, app_assoc. apply sublist_app; [|done].
    unfold wordStep.
    destruct (exceeds (wc ++ [space] ++ w) n).
    + destruct wc as [|c wc]; cbn [truthy].
      * by apply sublist_inserts_r.
      * by rewrite kept_push.
    + unfold kept. cbn [fst snd]. rewrite !contentOf_app.
      change (contentOf [space]) with (@nil N). by rewrite app_nil_l, app_assoc.
Qed.

Lemma splitByWords_kept (n : Z) (chunks : list (list N)) (s : list N) :
  contentOf (concat (splitByWords n chunks s))
  `sublist_of` contentOf (concat chunks) ++ contentOf s.
Proof.
  unfold splitByWords.
  pose proof (wordStep_kept n (splitSpaces s) (chunks, [])) as Hloop.
  rewrite contentOf_splitSpaces in Hloop.
  unfold kept at 2 in Hloop. cbn [fst snd] in Hloop.
  rewrite app_nil_r in Hloop.
  destruct (fold_left (wordStep n) (splitSpaces s) (chunks, []))
    as [chunks' wc].
  destruct wc as [|c wc]; cbn [truthy].
  - unfold kept in Hloop. cbn [fst snd] in Hloop.
    by rewrite app_nil_r in Hloop.
  - etrans; [|exact Hloop]. unfold kept. cbn [fst snd].
    by rewrite concat_app, !contentOf_app, concat_cons, concat_nil,
      app_nil_r, contentOf_trim.
Qed.

Lemma contentOf_full_stop (s : list N) :
  contentOf (s ++ [full_stop]) = contentOf s.
Proof. rewrite contentOf_app. cbn. apply app_nil_r. Qed.

Lemma sentenceStep_kept (n : Z) (sentences : list (list N)) :
  forall st,
    kept (fold_left (sentenceStep n) sentences st)
    `sublist_of` kept st ++ contentOf (concat sentences).
Proof.
  induction sentences as [|s sentences IH]; intros [chunks cur].
  - cbn [fold_left concat]. by rewrite app_nil_r.
  - cbn [fold_left concat]. etrans; [apply IH|].
    rewrite contentOf_app, app_assoc. apply sublist_app; [|done].
    unfold sentenceStep.
    destruct (exceeds (cur ++ s) n).
    + destruct cur as [|c cur]; cbn [truthy].
      * unfold kept. cbn [fst snd]. rewrite !app_nil_r.
        apply splitByWords_kept.
      * by rewrite kept_push.
    + unfold kept. cbn [fst snd]. rewrite !contentOf_app.
      change (contentOf [full_stop]) with (@nil N).
      by rewrite app_nil_r, !app_assoc.
Qed.

(** With sentences that all fit, the word loop is never entered and
    nothing is left out. *)
Lemma sentenceStep_kept_all (n : Z) (sentences : list (list N)) :
  Forall (fun s => Z.of_nat (length s) <= n) sentences ->
  forall st,
    kept (fold_left (sentenceStep n) sentences st)
    = kept st ++ contentOf (concat sentences).
Proof.
  induction 1 as [|s sentences Hs _ IH]; intros [chunks cur].
  - cbn [fold_left concat]. by rewrite app_nil_r.
  - cbn [fold_left concat]. rewrite IH.
    rewrite contentOf_app, app_assoc. f_equal.
    unfold sentenceStep.
    destruct (exceeds (cur ++ s) n) eqn:Hexceeds.
    + destruct cur as [|c cur]; cbn [truthy].
      * cbn [app] in Hexceeds.
        by rewrite (proj2 (exceeds_false s n) Hs) in Hexceeds.
      * by rewrite kept_push.
    + unfold kept. cbn [fst snd]. rewrite !contentOf_app.
      change (contentOf [full_stop]) with (@nil N).
      by rewrite app_nil_r, !app_assoc.
Qed.

Lemma concat_filter_nonempty (chunks : list (list N)) :
  concat (List.filter (fun chunk => (0 <? length chunk)%nat) chunks)
  = concat chunks.
Proof.
  induction chunks as [|chunk chunks IH]; [done|].
  destruct chunk as [|c chunk].
  - exact IH.
  - exact (f_equal (app (c :: chunk)) IH).
Qed.

(** What [splitTextIntoChunks] makes of the state its loop ends in. *)
Lemma rejoin_kept (text : list N) (n : Z) :
  contentOf (rejoin (splitTextIntoChunks text n))
  = kept (fold_left (sentenceStep n) (splitSentences text) ([], [])).
Proof.
  unfold splitTextIntoChunks, rejoin.
  destruct (fold_left (sentenceStep n) (splitSentences text) ([], []))
    as [chunks cur].
  rewrite concat_filter_nonempty. unfold kept. cbn [fst snd].
  destruct cur as [|c cur]; cbn [truthy].
  - by rewrite app_nil_r.
  - by rewrite concat_app, !contentOf_app, concat_cons, concat_nil,
      app_nil_r, contentOf_trim.
Qed.

(** X26: chunking invents nothing and changes no order: whatever the text
    and the bound, the code units of the chunks, joined, that are neither
    white space nor terminators are a subsequence of those of the text.
    (The full stops the chunks end with are terminators.) *)
Theorem splitTextIntoChunks_content_sublist (text : list N) (maxChunkSize : Z) :
  contentOf (rejoin (splitTextIntoChunks text maxChunkSize))
  `sublist_of` contentOf text.
Proof.
  rewrite rejoin_kept.
  etrans; [apply sentenceStep_kept|].
  by rewrite contentOf_splitSentences.
Qed.

(** X27: when every sentence of the text fits in [maxChunkSize], chunking
    loses nothing but white space and terminators: the chunks, joined,
    hold the same content as the text. *)
Theorem splitTextIntoChunks_content_kept (text : list N) (maxChunkSize : Z) :
  Forall (fun s => Z.of_nat (length s) <= maxChunkSize)
    (splitSentences text) ->
  contentOf (rejoin (splitTextIntoChunks text maxChunkSize)) = contentOf text.
Proof.
  intros Hfit. rewrite rejoin_kept.
  rewrite (sentenceStep_kept_all maxChunkSize _ Hfit).
  by rewrite contentOf_splitSentences.
Qed.

Lemma splitTextIntoChunks_content_kept_witness :
  contentOf (rejoin (splitTextIntoChunks (str "Stop! Go on?ok") 8))
  = contentOf (str "Stop! Go on?ok").
Proof.
  apply (splitTextIntoChunks_content_kept (str "Stop! Go on?ok") 8).
  repeat constructor; cbn; lia.
Defined.

End ChunkContent.

(** ** More on [averageEmbeddings] *)

Module AveragingMore.
Import Heap Averaging AveragingLoops.

(** X7: on any input whose references are allocated the call succeeds,
    and it changes no array that existed before it: the vectors of the
    caller are read, never written.  Except for a single vector, which is
    returned itself, the result is a new array. *)
Theorem averageEmbeddings_preserves {num : Type} `{Arith num}
    (refs : list positive) (vs : list (list num))
    (h : gmap positive (list num)) :
  Forall2 (fun r v => h !! r = Some v) refs vs ->
  exists r h',
    averageEmbeddings refs h = Some (r, h')
    /\ (forall r0 v0, h !! r0 = Some v0 -> h' !! r0 = Some v0)
    /\ (length refs <> 1%nat -> h !! r = None).
Proof.
  intros Hrefs.
  assert (h !! fresh (dom h) = None) as Hfresh
    by apply not_elem_of_dom, is_fresh.
  assert (forall out r0 v0, h !! r0 = Some v0 ->
            <[fresh (dom h) := out]> h !! r0 = Some v0) as Hframe.
  { intros out r0 v0 Hr0. rewrite lookup_insert_ne; [done|congruence]. }
  destruct refs as [|r0 [|r1 refs]].
  - exists (fresh (dom h)), (<[fresh (dom h) := []]> h).
    split_and!; [reflexivity|apply Hframe|done].
  - exists r0, h. split_and!; [reflexivity|done|done].
  - rewrite (averageEmbeddings_runs _ vs h Hrefs) by (cbn; lia).
    eexists _, _. split_and!; [reflexivity|apply Hframe|done].
Qed.

Lemma averageEmbeddings_preserves_witness :
  exists r h',
    averageEmbeddings [1%positive; 1%positive]
      (<[1%positive := [1%float; 2%float]]> ∅) = Some (r, h')
    /\ (forall r0 v0,
          (<[1%positive := [1%float; 2%float]]> ∅ : gmap positive (list float))
            !! r0 = Some v0 ->
          h' !! r0 = Some v0)
    /\ (length [1%positive; 1%positive] <> 1%nat ->
        (<[1%positive := [1%float; 2%float]]> ∅ : gmap positive (list float))
          !! r = None).
Proof.
  apply (averageEmbeddings_preserves [1%positive; 1%positive]
           [[1%float; 2%float]; [1%float; 2%float]]).
  repeat constructor.
Defined.

Lemma column_agree {num : Type} `{Arith num} (d i : nat)
    (vs vs' : list (list num)) :
  (i < d)%nat ->
  Forall2 (fun v v' => take d v = take d v') vs vs' ->
  column i vs = column i vs'.
Proof.
  intros Hi. unfold column. induction 1 as [|v v' vs vs' Hv _ IH]; [done|].
  cbn. rewrite IH. f_equal.
  rewrite <- (lookup_take_lt v d i), <- (lookup_take_lt v' d i) by done.
  by rewrite Hv.
Qed.

(** X8: the first vector alone decides the dimension, and what the later
    vectors hold past it is never read: two inputs with the same first
    vector, whose later vectors agree on their first [length first]
    components, have the same average. *)
Theorem averageEmbeddings_ignores_excess {num : Type} `{Arith num}
    (r0 : positive) (first : list num) (rest rest' : list positive)
    (vs vs' : list (list num)) (h : gmap positive (list num)) :
  h !! r0 = Some first ->
  Forall2 (fun r v => h !! r = Some v) rest vs ->
  Forall2 (fun r v => h !! r = Some v) rest' vs' ->
  Forall2 (fun v v' => take (length first) v = take (length first) v') vs vs' ->
  rest <> [] ->
  returned (averageEmbeddings (r0 :: rest) h)
  = returned (averageEmbeddings (r0 :: rest') h).
Proof.
  intros Hfirst Hrest Hrest' Hagree Hne.
  assert (length vs = length vs') as Hlen by (by eapply Forall2_length).
  assert (2 <= length (r0 :: rest))%nat as H2
    by (destruct rest; [done|cbn; lia]).
  assert (2 <= length (r0 :: rest'))%nat as H2'.
  { apply Forall2_length in Hrest, Hrest'. cbn in *. lia. }
  rewrite (averageEmbeddings_runs (r0 :: rest) (first :: vs) h
             ltac:(by constructor) H2).
  rewrite (averageEmbeddings_runs (r0 :: rest') (first :: vs') h
             ltac:(by constructor) H2').
  cbn [returned]. rewrite !lookup_insert_eq. f_equal.
  cbn [meanVector]. apply list_eq. intros i.
  rewrite !list_lookup_fmap.
  destruct (seq 0 (length first) !! i) as [j|] eqn:Hj; [|done]. cbn.
  apply lookup_seq in Hj as [-> Hi]. unfold mean. cbn [length plus].
  rewrite Hlen. do 3 f_equal. cbn [column fmap list_fmap]. f_equal.
  by apply (column_agree (length first)).
Qed.

Lemma averageEmbeddings_ignores_excess_witness :
  returned (averageEmbeddings [1%positive; 2%positive]
              (<[1%positive := [1%float]]>
                 (<[2%positive := [3%float; 7%float]]>
                    (<[3%positive := [3%float]]> ∅))))
  = returned (averageEmbeddings [1%positive; 3%positive]
                (<[1%positive := [1%float]]>
                   (<[2%positive := [3%float; 7%float]]>
                      (<[3%positive := [3%float]]> ∅)))).
Proof.
  apply (averageEmbeddings_ignores_excess 1%positive [1%float]
           [2%positive] [3%positive] [[3%float; 7%float]] [[3%float]]).
  - reflexivity.
  - repeat constructor.
  - repeat constructor.
  - repeat constructor.
  - discriminate.
Defined.

End AveragingMore.

(** ** [averageEmbeddings] in binary64 arithmetic *)

Module AveragingFloat.
Import Heap Averaging AveragingLoops.

Local Open Scope float_scope.

(** NaN absorbs: a sum with a NaN term, and a NaN divided, are NaN. *)
Lemma add_nan_r (x : float) : x + PrimFloat.nan = PrimFloat.nan.
Proof.
  rewrite <- (SF2Prim_Prim2SF (x + PrimFloat.nan)), FloatAxioms.add_spec.
  change (Prim2SF PrimFloat.nan) with S754_nan. by destruct (Prim2SF x).
Qed.

Lemma add_nan_l (x : float) : PrimFloat.nan + x = PrimFloat.nan.
Proof.
  rewrite <- (SF2Prim_Prim2SF (PrimFloat.nan + x)), FloatAxioms.add_spec.
  by change (Prim2SF PrimFloat.nan) with S754_nan.
Qed.

Lemma div_nan_l (x : float) : PrimFloat.nan / x = PrimFloat.nan.
Proof.
  rewrite <- (SF2Prim_Prim2SF (PrimFloat.nan / x)), FloatAxioms.div_spec.
  by change (Prim2SF PrimFloat.nan) with S754_nan.
Qed.

Lemma fold_add_from_nan (xs : list float) :
  fold_left PrimFloat.add xs PrimFloat.nan = PrimFloat.nan.
Proof. induction xs as [|x xs IH]; [done|]. cbn. by rewrite add_nan_l. Qed.

Lemma fold_add_with_nan (xs : list float) :
  PrimFloat.nan ∈ xs -> forall z, fold_left PrimFloat.add xs z = PrimFloat.nan.
Proof.
  induction xs as [|x xs IH]; intros Hin z; [by apply elem_of_nil in Hin|].
  cbn. apply elem_of_cons in Hin as [<-|Hin].
  - rewrite add_nan_r. apply fold_add_from_nan.
  - by apply IH.
Qed.

(** X9: a vector shorter than the first one is not rejected.  At every
    index it lacks, the read gives [undefined], the sum becomes NaN, and
    so does that component of the average. *)
Theorem averageEmbeddings_short_vector_nan
    (refs : list positive) (first short : list float)
    (rest : list (list float)) (i : nat) (h : gmap positive (list float)) :
  Forall2 (fun r v => h !! r = Some v) refs (first :: rest) ->
  short ∈ rest ->
  (length short <= i < length first)%nat ->
  exists out,
    returned (averageEmbeddings refs h) = Some out
    /\ out !! i = Some PrimFloat.nan.
Proof.
  intros Hrefs Hshort [Hlo Hhi].
  assert (2 <= length refs)%nat as H2.
  { apply Forall2_length in Hrefs. destruct rest; [by apply elem_of_nil in Hshort|].
    cbn in Hrefs. lia. }
  rewrite (averageEmbeddings_runs refs _ h Hrefs H2).
  eexists. split; [apply lookup_insert_eq|].
  cbn [meanVector]. rewrite list_lookup_fmap, lookup_seq_lt by done.
  cbn [fmap option_fmap option_map Nat.add]. f_equal.
  unfold mean, total.
  rewrite (fold_add_with_nan (column i (first :: rest))).
  - apply div_nan_l.
  - unfold column. apply list_elem_of_fmap. exists short. split.
    + by rewrite (lookup_ge_None_2 short i).
    + by right.
Qed.

Lemma averageEmbeddings_short_vector_nan_witness :
  exists out,
    returned (averageEmbeddings [1%positive; 2%positive]
                (<[1%positive := [1; 2]]> (<[2%positive := [3]]> ∅)))
    = Some out
    /\ out !! 1%nat = Some PrimFloat.nan.
Proof.
  apply (averageEmbeddings_short_vector_nan [1%positive; 2%positive]
           [1; 2] [3] [[3]] 1).
  - repeat constructor.
  - by left.
  - cbn. lia.
Defined.

(** Addition from zero of two terms does not depend on their order. *)
Lemma SFadd_two_terms (a b : spec_float) :
  SF64add (SF64add (S754_zero false) a) b
  = SF64add (SF64add (S754_zero false) b) a.
Proof.
  destruct a as [[]|[]| |sa ma ea], b as [[]|[]| |sb mb eb]; try reflexivity.
  unfold SF64add. cbn [SFadd]. by rewrite Z.min_comm, Z.add_comm.
Qed.

Lemma add_two_terms (a b : float) : 0 + a + b = 0 + b + a.
Proof.
  rewrite <- (SF2Prim_Prim2SF (0 + a + b)), <- (SF2Prim_Prim2SF (0 + b + a)).
  rewrite !FloatAxioms.add_spec. change (Prim2SF 0) with (S754_zero false).
  by rewrite SFadd_two_terms.
Qed.

(** X10: for two vectors the order does not matter, rounding or not: the
    average of [a] and [b] equals the average of [b] and [a], component by
    component, whatever their lengths. *)
Theorem averageEmbeddings_two_commute
    (ra rb : positive) (a b : list float) (h : gmap positive (list float)) :
  h !! ra = Some a ->
  h !! rb = Some b ->
  length a = length b ->
  returned (averageEmbeddings [ra; rb] h)
  = returned (averageEmbeddings [rb; ra] h).
Proof.
  intros Ha Hb Hlen.
  rewrite (averageEmbeddings_runs [ra; rb] [a; b] h) by (by repeat constructor).
  rewrite (averageEmbeddings_runs [rb; ra] [b; a] h) by (by repeat constructor).
  cbn [returned]. rewrite !lookup_insert_eq. f_equal.
  cbn [meanVector]. rewrite Hlen. apply list_fmap_ext. intros _ i _.
  unfold mean, total. cbn. by rewrite add_two_terms.
Qed.

Lemma averageEmbeddings_two_commute_witness :
  returned (averageEmbeddings [1%positive; 2%positive]
              (<[1%positive := [1e16; 0.5]]> (<[2%positive := [1; 0.25]]> ∅)))
  = returned (averageEmbeddings [2%positive; 1%positive]
                (<[1%positive := [1e16; 0.5]]> (<[2%positive := [1; 0.25]]> ∅))).
Proof.
  apply (averageEmbeddings_two_commute 1%positive 2%positive
           [1e16; 0.5] [1; 0.25]); reflexivity.
Defined.

End AveragingFloat.

(** ** The order of the vectors, in binary64 *)

Module AveragingOrderFloat.
Import Heap Averaging AveragingLoops AveragingOrder AveragingFloat.

Local Open Scope float_scope.

(** The sum of a column does not change when its first two terms are
    exchanged: the first is added to [0], which rounds nothing. *)
Lemma total_first_two (a b : float) (xs : list float) :
  total (a :: b :: xs) = total (b :: a :: xs).
Proof. unfold total. cbn. by rewrite add_two_terms. Qed.

(** C5, amended: in the binary64 arithmetic of the program, the average
    does not change when the first two vectors are exchanged, whatever
    vectors follow them; in particular the average of two vectors does not
    depend on their order.  (Other reorderings of three or more vectors
    can change it: the sum is accumulated in the order of the input and
    rounded at each step.) *)
Theorem averageEmbeddings_order_first_two
    (r1 r2 : positive) (rest : list positive)
    (v1 v2 : list float) (vs : list (list float))
    (h : gmap positive (list float)) :
  h !! r1 = Some v1 ->
  h !! r2 = Some v2 ->
  length v1 = length v2 ->
  Forall2 (fun r v => h !! r = Some v) rest vs ->
  exists out,
    returned (averageEmbeddings (r1 :: r2 :: rest) h) = Some out
    /\ returned (averageEmbeddings (r2 :: r1 :: rest) h) = Some out.
Proof.
  intros H1 H2 Hlen Hrest.
  assert (Forall2 (fun r v => h !! r = Some v)
            (r1 :: r2 :: rest) (v1 :: v2 :: vs)) as Hall
    by (constructor; [|constructor]; done).
  assert (Forall2 (fun r v => h !! r = Some v)
            (r2 :: r1 :: rest) (v2 :: v1 :: vs)) as Hall'
    by (constructor; [|constructor]; done).
  rewrite (averageEmbeddings_runs _ _ h Hall) by (cbn; lia).
  rewrite (averageEmbeddings_runs _ _ h Hall') by (cbn; lia).
  exists (meanVector (v1 :: v2 :: vs)). cbn [returned].
  rewrite !lookup_insert_eq. split; [reflexivity|]. f_equal.
  cbn [meanVector]. rewrite Hlen. apply list_fmap_ext. intros _ i _.
  unfold mean, column. cbn [fmap list_fmap length].
  by rewrite total_first_two.
Qed.

Lemma averageEmbeddings_order_first_two_witness :
  exists out,
    returned (averageEmbeddings [1; 2; 3]%positive cancellingHeap) = Some out
    /\ returned (averageEmbeddings [2; 1; 3]%positive cancellingHeap)
       = Some out.
Proof.
  apply (averageEmbeddings_order_first_two 1%positive 2%positive [3%positive]
           [1e16] [-1e16] [[1]]).
  - reflexivity.
  - reflexivity.
  - reflexivity.
  - repeat constructor.
Defined.

End AveragingOrderFloat.

(** ** More on [generateEmbeddings] *)

Module EmbeddingFlow.
Import JSString JSStringFacts Chunking Located Rechunk Heap Averaging.
Import AveragingLoops Service SingleSentence SeveralSentences.

(** The provider answers the chunks, one call after the other from state
    [p], with the vectors [vs], and is left in state [p']. *)
Inductive answered {num provider : Type}
    (create : list N -> provider -> (list N + list num) * provider)
    : list (list N) -> provider -> list (list num) -> provider -> Prop :=
  | answered_nil p : answered create [] p [] p
  | answered_cons chunk chunks p v p1 vs p2 :
      create chunk p = (inr v, p1) ->
      answered create chunks p1 vs p2 ->
      answered create (chunk :: chunks) p (v :: vs) p2.

Section Flow.
Context {num : Type} `{Arith num}.
Variable provider : Type.
Variable create : list N -> provider -> (list N + list num) * provider.

Lemma answered_length chunks p vs p' :
  answered create chunks p vs p' -> length vs = length chunks.
Proof. induction 1; cbn; congruence. Qed.

(** Allocation of a received vector keeps what was in the heap. *)
Lemma alloc_frame (h : gmap positive (list num)) (v : list num)
    (r0 : positive) (v0 : list num) :
  h !! r0 = Some v0 -> <[fresh (dom h) := v]> h !! r0 = Some v0.
Proof.
  intros Hr0. rewrite lookup_insert_ne; [done|]. intros <-.
  by rewrite (proj1 (not_elem_of_dom h _) (is_fresh (dom h))) in Hr0.
Qed.

Lemma embedChunks_answered chunks p vs p' :
  answered create chunks p vs p' ->
  forall embeddings h,
    exists refs h',
      embedChunks provider create chunks embeddings h p
      = (inr (embeddings ++ refs), h', p')
      /\ Forall2 (fun r v => h' !! r = Some v) refs vs
      /\ (forall r0 v0, h !! r0 = Some v0 -> h' !! r0 = Some v0).
Proof.
  induction 1 as [p|chunk chunks p v p1 vs p2 Hcreate _ IH]; intros embeddings h.
  - exists [], h. cbn. by rewrite app_nil_r.
  - cbn [embedChunks]. rewrite Hcreate.
    destruct (IH (embeddings ++ [fresh (dom h)]) (<[fresh (dom h) := v]> h))
      as (refs & h' & -> & Hrefs & Hframe).
    exists (fresh (dom h) :: refs), h'. rewrite <- app_assoc. split_and!.
    + done.
    + constructor; [|done]. apply Hframe, lookup_insert_eq.
    + intros r0 v0 Hr0. by apply Hframe, alloc_frame.
Qed.

Lemma embedChunks_failed before p vs p1 bad message p2 after :
  answered create before p vs p1 ->
  create bad p1 = (inl message, p2) ->
  forall embeddings h,
    exists h',
      embedChunks provider create (before ++ bad :: after) embeddings h p
      = (inl message, h', p2)
      /\ (forall r0 v0, h !! r0 = Some v0 -> h' !! r0 = Some v0).
Proof.
  intros Hbefore Hbad.
  induction Hbefore as [p|chunk chunks p v p1 vs p3 Hcreate _ IH];
    intros embeddings h.
  - exists h. cbn. by rewrite Hbad.
  - cbn [app embedChunks]. rewrite Hcreate.
    destruct (IH Hbad (embeddings ++ [fresh (dom h)])
                (<[fresh (dom h) := v]> h)) as (h' & -> & Hframe).
    exists h'. split; [done|].
    intros r0 v0 Hr0. by apply Hframe, alloc_frame.
Qed.

Lemma guard_passes (text : list N) :
  trim text <> [] ->
  negb (truthy text) || (length (trim text) =? 0)%nat = false.
Proof.
  intros Htrim. destruct text as [|c text]; [done|]. cbn [truthy negb orb].
  by destruct (trim (c :: text)).
Qed.

End Flow.

(** X11: a text that is empty or all white space is refused before
    anything else happens: the call throws ["Failed to generate
    embeddings: Text cannot be empty"], the provider is not called and the
    heap is unchanged. *)
Theorem generateEmbeddings_blank {num : Type} `{Arith num}
    (provider : Type)
    (create : list N -> provider -> (list N + list num) * provider)
    (text : list N) (h : gmap positive (list num)) (p : provider) :
  Forall (fun c => isWhiteSpace c = true) text ->
  generateEmbeddings provider create text h p
  = Some (Throw (str "Failed to generate embeddings: Text cannot be empty"),
          h, p).
Proof.
  intros Hblank. unfold generateEmbeddings.
  assert (trim text = []) as ->; [|by rewrite orb_true_r].
  apply ChunkingFacts.trim_blank. unfold ChunkingFacts.blank.
  induction Hblank as [|c text Hc _ IH]; [done|]. cbn. by rewrite Hc.
Qed.

Lemma generateEmbeddings_blank_witness :
  generateEmbeddings unit ServiceFacts.constantProvider (str "   ") ∅ tt
  = Some (Throw (str "Failed to generate embeddings: Text cannot be empty"),
          ∅, tt).
Proof.
  apply (generateEmbeddings_blank unit ServiceFacts.constantProvider
           (str "   ")).
  repeat constructor.
Defined.


(** A provider that is out of service. *)
Definition failingProvider (chunk : list N) (p : unit)
    : (list N + list float) * unit :=
  (inl (str "503"), tt).


(** X13: when chunking gives two chunks or more and the provider answers
    them all, it is called once per chunk, in order, and the call returns
    a new array holding the component-wise mean of the vectors received;
    no array of the caller is changed. *)
Theorem generateEmbeddings_many_chunks {num : Type} `{Arith num}
    (provider : Type)
    (create : list N -> provider -> (list N + list num) * provider)
    (text : list N) (vs : list (list num))
    (h : gmap positive (list num)) (p p' : provider) :
  trim text <> [] ->
  (2 <= length (splitTextIntoChunks text 8000))%nat ->
  answered create (splitTextIntoChunks text 8000) p vs p' ->
  exists r h',
    generateEmbeddings provider create text h p = Some (Return (Ref r), h', p')
    /\ h' !! r = Some (meanVector vs)
    /\ h !! r = None
    /\ (forall r0 v0, h !! r0 = Some v0 -> h' !! r0 = Some v0).
Proof.
  intros Htrim Hmany Hanswered. unfold generateEmbeddings.
  rewrite (guard_passes text Htrim).
  destruct (embedChunks_answered provider create _ p vs p' Hanswered [] h)
    as (refs & h1 & -> & Hrefs & Hframe).
  cbn [app].
  assert (2 <= length refs)%nat as H2.
  { rewrite (Forall2_length _ _ _ Hrefs).
    by rewrite (answered_length provider create _ _ _ _ Hanswered). }
  destruct (Nat.ltb_spec 1 (length refs)) as [_|]; [|lia].
  rewrite (averageEmbeddings_runs refs vs h1 Hrefs H2).
  assert (h1 !! fresh (dom h1) = None) as Hfresh
    by apply not_elem_of_dom, is_fresh.
  eexists _, _. split_and!; [reflexivity|apply lookup_insert_eq| |].
  - destruct (h !! fresh (dom h1)) as [v0|] eqn:E; [|done].
    apply Hframe in E. congruence.
  - intros r0 v0 Hr0. by apply alloc_frame, Hframe.
Qed.

(** Two sentences of 5000 code units each. *)
Definition twoLongSentences : list N :=
  replicate (N.to_nat 5000) 97%N ++ [46%N] ++ replicate (N.to_nat 5000) 98%N.

Lemma replicate_nonempty (n : N) (c : N) :
  (0 < n)%N -> replicate (N.to_nat n) c <> [].
Proof.
  intros Hn E. apply (f_equal length) in E.
  rewrite length_replicate in E. cbn [length] in E. lia.
Qed.

Lemma twoLongSentences_dense : dense twoLongSentences.
Proof.
  unfold twoLongSentences, dense.
  repeat apply Forall_app_2; try apply Forall_replicate; by repeat constructor.
Qed.

Lemma twoLongSentences_trim : trim twoLongSentences <> [].
Proof.
  rewrite (trim_dense _ twoLongSentences_dense). unfold twoLongSentences.
  intros E. apply app_eq_nil in E as [E _].
  by apply (replicate_nonempty 5000 97%N).
Qed.

Lemma twoLongSentences_chunks :
  splitTextIntoChunks twoLongSentences 8000
  = [replicate (N.to_nat 5000) 97%N ++ [46%N]; replicate (N.to_nat 5000) 98%N].
Proof.
  assert (forall c, isWhiteSpace c = false ->
            dense (replicate (N.to_nat 5000) c)) as Hdense
    by (intros c Hc; by apply Forall_replicate).
  unfold twoLongSentences.
  rewrite (two_sentences (replicate (N.to_nat 5000) 97%N)
             (replicate (N.to_nat 5000) 98%N) 46%N 8000).
  - by rewrite trimStart_dense, trim_dense by (by apply Hdense).
  - by apply Forall_replicate.
  - by apply Forall_replicate.
  - reflexivity.
  - rewrite trim_dense by (by apply Hdense). by apply replicate_nonempty.
  - rewrite length_replicate. lia.
  - rewrite !length_replicate. lia.
Qed.

Lemma generateEmbeddings_many_chunks_witness :
  exists r h',
    generateEmbeddings unit ServiceFacts.constantProvider twoLongSentences
      ∅ tt
    = Some (Return (Ref r), h', tt)
    /\ h' !! r = Some (meanVector [[1%float; 2%float]; [1%float; 2%float]])
    /\ (∅ : gmap positive (list float)) !! r = None
    /\ (forall r0 v0,
          (∅ : gmap positive (list float)) !! r0 = Some v0 ->
          h' !! r0 = Some v0).
Proof.
  apply (generateEmbeddings_many_chunks unit ServiceFacts.constantProvider
           twoLongSentences).
  - exact twoLongSentences_trim.
  - rewrite twoLongSentences_chunks. cbn [length]. lia.
  - rewrite twoLongSentences_chunks. repeat econstructor.
Defined.

(** X14: when the text passes the guard but chunking gives no chunk, the
    call returns [undefined]: it neither throws nor calls the provider. *)
Theorem generateEmbeddings_no_chunk {num : Type} `{Arith num}
    (provider : Type)
    (create : list N -> provider -> (list N + list num) * provider)
    (text : list N) (h : gmap positive (list num)) (p : provider) :
  trim text <> [] ->
  splitTextIntoChunks text 8000 = [] ->
  generateEmbeddings provider create text h p = Some (Return Undefined, h, p).
Proof.
  intros Htrim Hchunks. unfold generateEmbeddings.
  by rewrite (guard_passes text Htrim), Hchunks.
Qed.

(** One word of 8001 code units. *)
Definition oneLongWord : list N := replicate (N.to_nat 8001) 97%N.

Lemma oneLongWord_trim : trim oneLongWord <> [].
Proof.
  rewrite trim_dense by (by apply Forall_replicate).
  by apply replicate_nonempty.
Qed.

Lemma oneLongWord_chunks : splitTextIntoChunks oneLongWord 8000 = [].
Proof.
  assert (Z.of_nat (length oneLongWord) = 8001) as Hlen
    by (unfold oneLongWord; rewrite length_replicate; lia).
  unfold splitTextIntoChunks.
  rewrite (one_sentence oneLongWord) by (by apply Forall_replicate).
  cbn [fold_left sentenceStep]. rewrite !app_nil_l. unfold exceeds at 1.
  rewrite Hlen. cbn [Z.gtb Z.compare Pos.compare Pos.compare_cont truthy].
  unfold splitByWords.
  rewrite (splitSpaces_plain oneLongWord) by (by apply Forall_replicate).
  cbn [fold_left wordStep]. unfold exceeds. rewrite !length_app.
  cbn [length truthy].
  replace (Z.of_nat (0 + (1 + length oneLongWord))) with 8002 by lia.
  reflexivity.
Qed.

Lemma generateEmbeddings_no_chunk_witness :
  generateEmbeddings unit ServiceFacts.constantProvider oneLongWord ∅ tt
  = Some (Return Undefined, ∅, tt).
Proof.
  apply (generateEmbeddings_no_chunk unit ServiceFacts.constantProvider
           oneLongWord).
  - exact oneLongWord_trim.
  - exact oneLongWord_chunks.
Defined.

(** X15: for a text of at most 8000 code units without terminators, such
    as a short query, the provider is called once, and what it receives
    is not the text but the text without its leading white space and with
    a full stop appended. *)
Theorem generateEmbeddings_short_text {num : Type} `{Arith num}
    (provider : Type)
    (create : list N -> provider -> (list N + list num) * provider)
    (text : list N) (v : list num)
    (h : gmap positive (list num)) (p p' : provider) :
  noTerminator text ->
  trim text <> [] ->
  Z.of_nat (length text) <= 8000 ->
  create (trimStart text ++ [full_stop]) p = (inr v, p') ->
  exists r,
    h !! r = None
    /\ generateEmbeddings provider create text h p
       = Some (Return (Ref r), <[r := v]> h, p').
Proof.
  intros Hplain Htrim Hfit Hcreate.
  exists (fresh (dom h)). split; [apply not_elem_of_dom, is_fresh|].
  assert (splitTextIntoChunks text 8000 = [trimStart text ++ [full_stop]])
    as Hchunks.
  { unfold splitTextIntoChunks.
    rewrite (one_sentence text Hplain). cbn [fold_left sentenceStep].
    rewrite !app_nil_l, (proj2 (exceeds_false text 8000) Hfit).
    replace (truthy (text ++ [full_stop])) with true by (by destruct text).
    rewrite trim_full_stop. by destruct (trimStart text). }
  unfold generateEmbeddings.
  rewrite (guard_passes text Htrim), Hchunks. cbn [embedChunks].
  by rewrite Hcreate.
Qed.

Lemma generateEmbeddings_short_text_witness :
  exists r,
    (∅ : gmap positive (list float)) !! r = None
    /\ generateEmbeddings unit ServiceFacts.constantProvider
         (str " what is RAG ") ∅ tt
       = Some (Return (Ref r), <[r := [1%float; 2%float]]> ∅, tt).
Proof.
  apply (generateEmbeddings_short_text unit ServiceFacts.constantProvider
           (str " what is RAG ")).
  - repeat constructor.
  - discriminate.
  - cbn. lia.
  - reflexivity.
Defined.

End EmbeddingFlow.

(** ** [generateEmbeddings] always completes *)

Module EmbeddingSafety.
Import JSString Chunking Heap Averaging AveragingLoops Service EmbeddingFlow.

Section Safety.
Context {num : Type} `{Arith num}.
Variable provider : Type.
Variable create : list N -> provider -> (list N + list num) * provider.

(** Every reference of the list names an array of the heap. *)
Definition allocated (h : gmap positive (list num)) (refs : list positive)
    : Prop :=
  Forall (fun r => is_Some (h !! r)) refs.

Lemma allocated_vectors (h : gmap positive (list num))
    (refs : list positive) :
  allocated h refs ->
  exists vs, Forall2 (fun r v => h !! r = Some v) refs vs.
Proof.
  induction 1 as [|r refs [v Hr] _ [vs IH]]; [by exists []|].
  exists (v :: vs). by constructor.
Qed.

(** Whatever the provider answers, the loop ends, keeps the arrays there
    were, and collects references to arrays it has allocated. *)
Lemma embedChunks_allocated (chunks : list (list N)) :
  forall embeddings h p,
    allocated h embeddings ->
    exists res h' p',
      embedChunks provider create chunks embeddings h p = (res, h', p')
      /\ (forall r0 v0, h !! r0 = Some v0 -> h' !! r0 = Some v0)
      /\ match res with
         | inl _ => True
         | inr refs => allocated h' refs
         end.
Proof.
  induction chunks as [|chunk chunks IH]; intros embeddings h p Hallocated.
  - by eexists (inr embeddings), h, p.
  - cbn [embedChunks].
    destruct (create chunk p) as [[message|embedding] p1].
    + by eexists (inl message), h, p1.
    + destruct (IH (embeddings ++ [fresh (dom h)])
                  (<[fresh (dom h) := embedding]> h) p1)
        as (res & h' & p' & E & Hframe & Hres).
      { apply Forall_app. split.
        - eapply Forall_impl; [exact Hallocated|].
          intros r [v Hv]. exists v. by apply alloc_frame.
        - constructor; [|constructor]. exists embedding.
          apply lookup_insert_eq. }
      exists res, h', p'. split_and!; [exact E| |exact Hres].
      intros r0 v0 Hr0. by apply Hframe, alloc_frame.
Qed.

End Safety.

(** X28: whatever the text, the heap and the answers of the provider
    (vectors of any lengths, errors at any chunk), [generateEmbeddings]
    completes: it never reads an array that is not there and never writes
    outside one.  It leaves the arrays that existed before as they were,
    and every error it throws carries the prefix
    ["Failed to generate embeddings: "]. *)
Theorem generateEmbeddings_completes {num : Type} `{Arith num}
    (provider : Type)
    (create : list N -> provider -> (list N + list num) * provider)
    (text : list N) (h : gmap positive (list num)) (p : provider) :
  exists c h' p',
    generateEmbeddings provider create text h p = Some (c, h', p')
    /\ (forall r0 v0, h !! r0 = Some v0 -> h' !! r0 = Some v0)
    /\ (forall message,
          c = Throw message ->
          exists cause,
            message = str "Failed to generate embeddings: " ++ cause).
Proof.
  unfold generateEmbeddings.
  destruct (negb (truthy text) || (length (trim text) =? 0)%nat).
  { eexists _, h, p. split_and!; [reflexivity|done|].
    intros message [= <-]. by eexists. }
  destruct (embedChunks_allocated provider create
              (splitTextIntoChunks text 8000) [] h p)
    as (res & h1 & p1 & -> & Hframe & Hres); [constructor|].
  destruct res as [cause|refs].
  { eexists _, h1, p1. split_and!; [reflexivity|done|].
    intros message [= <-]. by eexists. }
  destruct (Nat.ltb_spec 1 (length refs)) as [Hmany|Hfew].
  - destruct (allocated_vectors h1 refs Hres) as [vs Hvs].
    rewrite (averageEmbeddings_runs refs vs h1 Hvs) by lia.
    eexists _, _, p1. split_and!; [reflexivity| |done].
    intros r0 v0 Hr0. by apply alloc_frame, Hframe.
  - eexists _, h1, p1. split_and!; [reflexivity|done|done].
Qed.

End EmbeddingSafety.

(** * Part IV: the chat functions, the server and the bulk route *)

Module ChatFacts.
Import JSString Chunking Chat.

Lemma substring_prefix (s : list N) (n : N) :
  substring s 0 n = take (N.to_nat n) s.
Proof.
  unfold substring. change (N.to_nat 0) with 0%nat.
  rewrite Nat.min_0_l, Nat.max_0_l, Nat.min_0_l, Nat.sub_0_r, drop_0.
  destruct (Nat.le_ge_cases (N.to_nat n) (length s)) as [Hle|Hge].
  - by rewrite Nat.min_l.
  - rewrite Nat.min_r by done. by rewrite !take_ge.
Qed.

(** X17: [generateSummary] reads only the first 4000 code units of the
    text: two texts that agree on them give, for the same number
    [maxLength], the same call to the provider and the same result. *)
Theorem generateSummary_reads_4000 (provider : Type)
    (complete : request -> provider -> (list N + list N) * provider)
    (Math_ceil : float -> float) (numberToString : float -> list N)
    (text text' : list N) (maxLength : float) (p : provider) :
  take (N.to_nat 4000) text = take (N.to_nat 4000) text' ->
  generateSummary provider complete Math_ceil numberToString
    text maxLength p
  = generateSummary provider complete Math_ceil numberToString
      text' maxLength p.
Proof.
  intros Hagree. unfold generateSummary, summaryRequest, summaryPrompt.
  by rewrite !substring_prefix, Hagree.
Qed.

(** A provider that answers with the length of the prompt it is sent. *)
Definition measuringProvider (r : request) (p : unit)
    : (list N + list N) * unit :=
  (inr (concat ((fun m => decimal (Z.of_nat (length m.2))) <$> messages r)),
   tt).

Lemma take_replicate_app (n : N) (c : N) (rest : list N) :
  take (N.to_nat n) (replicate (N.to_nat n) c ++ rest)
  = replicate (N.to_nat n) c.
Proof. apply take_app_length'. by rewrite length_replicate. Qed.

(** The two built-ins at the default [maxLength]: [Math.ceil] leaves the
    integer 300 as it is, and 200 prints as its digits. *)
Definition ceilOfInteger (x : float) : float := x.

Definition textOfDefault (x : float) : list N := str "200".

Lemma generateSummary_reads_4000_witness :
  generateSummary unit measuringProvider ceilOfInteger textOfDefault
    (replicate (N.to_nat 4000) 97%N ++ str "b") defaultMaxLength tt
  = generateSummary unit measuringProvider ceilOfInteger textOfDefault
      (replicate (N.to_nat 4000) 97%N ++ str "c") defaultMaxLength tt.
Proof.
  apply (generateSummary_reads_4000 unit measuringProvider ceilOfInteger
           textOfDefault
           (replicate (N.to_nat 4000) 97%N ++ str "b")
           (replicate (N.to_nat 4000) 97%N ++ str "c")).
  by rewrite !take_replicate_app.
Defined.

(** X18: [extractTopicsAndEntities] too reads only the first 4000 code
    units of the text. *)
Theorem extractTopicsAndEntities_reads_4000 (provider : Type)
    (complete : request -> provider -> (list N + list N) * provider)
    (json : Type) (JSON_parse : list N -> option json)
    (text text' : list N) (p : provider) :
  take (N.to_nat 4000) text = take (N.to_nat 4000) text' ->
  extractTopicsAndEntities provider complete json JSON_parse text p
  = extractTopicsAndEntities provider complete json JSON_parse text' p.
Proof.
  intros Hagree. unfold extractTopicsAndEntities, analysisRequest, analysisPrompt.
  by rewrite !substring_prefix, Hagree.
Qed.

Lemma extractTopicsAndEntities_reads_4000_witness :
  extractTopicsAndEntities unit measuringProvider (list N) Some
    (replicate (N.to_nat 4000) 97%N ++ str "b") tt
  = extractTopicsAndEntities unit measuringProvider (list N) Some
      (replicate (N.to_nat 4000) 97%N ++ str "c") tt.
Proof.
  apply (extractTopicsAndEntities_reads_4000 unit measuringProvider
           (list N) Some
           (replicate (N.to_nat 4000) 97%N ++ str "b")
           (replicate (N.to_nat 4000) 97%N ++ str "c")).
  by rewrite !take_replicate_app.
Defined.


End ChatFacts.

(** ** The routes *)

Module ServerFacts.
Import JSString JSStringFacts Chunking Located Heap Averaging AveragingLoops.
Import Service Chat Server SingleSentence SeveralSentences EmbeddingFlow.

(** The vector [generateEmbeddings] hands back for the vectors the
    provider answered with: none when there was no chunk, the vector
    itself for one chunk, the mean for more. *)
Definition combined {num : Type} `{Arith num} (vs : list (list num))
    : option (list num) :=
  match vs with
  | [] => None
  | [only] => Some only
  | _ :: _ :: _ => Some (meanVector vs)
  end.

Section Embedding.
Context {num : Type} `{Arith num}.
Variable provider : Type.
Variable create : list N -> provider -> (list N + list num) * provider.

Lemma generateEmbeddings_guard (text : list N)
    (h : gmap positive (list num)) (p : provider) :
  trim text = [] ->
  generateEmbeddings provider create text h p
  = Some (failed (str "Text cannot be empty"), h, p).
Proof.
  intros E. unfold generateEmbeddings. rewrite E. by rewrite orb_true_r.
Qed.

Lemma generateEmbeddings_answered (text : list N) (vs : list (list num))
    (h : gmap positive (list num)) (p p' : provider) :
  trim text <> [] ->
  answered create (splitTextIntoChunks text 8000) p vs p' ->
  exists v h',
    generateEmbeddings provider create text h p = Some (Return v, h', p')
    /\ vectorOf h' v = combined vs.
Proof.
  intros Htrim Hanswered. unfold generateEmbeddings.
  rewrite (guard_passes text Htrim).
  destruct (embedChunks_answered provider create _ p vs p' Hanswered [] h)
    as (refs & h1 & -> & Hrefs & _).
  cbn [app].
  destruct Hrefs as [|r v refs vs Hr Hrefs]; [by eexists _, _|].
  destruct Hrefs as [|r' v' refs vs Hr' Hrefs]; [by eexists _, _|].
  cbn [length Nat.ltb Nat.leb].
  assert (Forall2 (fun r0 v0 => h1 !! r0 = Some v0)
            (r :: r' :: refs) (v :: v' :: vs)) as Hall
    by (constructor; [|constructor]; done).
  rewrite (averageEmbeddings_runs _ _ h1 Hall) by (cbn; lia).
  eexists _, _. split; [reflexivity|]. cbn [vectorOf combined].
  apply lookup_insert_eq.
Qed.

End Embedding.

Section Routes.
Context {num : Type} `{Arith num}.
Variable provider : Type.
Variable create : list N -> provider -> (list N + list num) * provider.
Variable complete : request -> provider -> (list N + list N) * provider.
Variable result : Type.
Variable resultContent : result -> list N.
Variable documentId : Type.
Variable extractText :
  list N -> list N -> provider -> (list N + list N) * provider.
Variable storeDocument :
  document num -> provider -> (list N + documentId) * provider.
Variable searchSimilar :
  option (list num) -> Z -> provider -> (list N + list result) * provider.
Variable unlinkSync : list N -> provider -> (list N + unit) * provider.
Variable toISOString : provider -> list N.
Variable other : Type.
Variable typeError : other -> list N.

Local Abbreviation searchBody :=
  (Server.searchBody provider create complete result resultContent
     documentId searchSimilar toISOString other typeError).
Local Abbreviation search :=
  (Server.search provider create complete result resultContent documentId
     searchSimilar toISOString).
Local Abbreviation upload :=
  (Server.upload provider create result documentId extractText
     storeDocument unlinkSync toISOString).

(** For a query that is missing or a string, the answer is 400 exactly
    when it is missing or empty. *)
Lemma search_string_status (query : option (list N)) (limit : option Z)
    (h : gmap positive (list num)) (p p' : provider)
    (answer : response documentId result) :
  search query limit h p = Some (answer, p') ->
  (status answer = 400 <-> query = None \/ query = Some [])
  /\ (status answer = 400 -> p' = p)
  /\ (status answer = 200 \/ status answer = 400 \/ status answer = 500).
Proof.
  unfold Server.search. intros Hrun.
  destruct query as [[|c query]|]; cbn [truthy negb] in Hrun.
  - injection Hrun as <- <-. cbn. split_and!; [split|..]; auto.
  - assert (status answer = 200 \/ status answer = 500) as Hstatus.
    { destruct (generateEmbeddings provider create (c :: query) h p)
        as [[[[v|message] h1] p1]|]; [| |discriminate].
      - destruct (searchSimilar (vectorOf h1 v) _ p1)
          as [[message|results] p2].
        + injection Hrun as <- <-. by right.
        + destruct (generateResponse provider complete result resultContent
                      (c :: query) results p2) as [[aiResponse|message] p3];
            injection Hrun as <- <-; [by left|by right].
      - injection Hrun as <- <-. by right. }
    split_and!.
    + split; [intros E; destruct Hstatus; congruence|].
      intros [|]; discriminate.
    + intros E. destruct Hstatus; congruence.
    + destruct Hstatus; auto.
  - injection Hrun as <- <-. cbn. split_and!; [split|..]; auto.
Qed.


(** X21: a query that is not empty but all white space passes the check
    of the route and is refused by [generateEmbeddings]: the answer is
    500, not 400, with the message of the service, and neither the
    providers nor the vector service are called. *)
Theorem search_blank_query (query : list N) (limit : option Z)
    (h : gmap positive (list num)) (p : provider) :
  query <> [] ->
  Forall (fun c => isWhiteSpace c = true) query ->
  search (Some query) limit h p
  = Some (serverError (str "Search failed")
            (str "Failed to generate embeddings: Text cannot be empty"), p).
Proof.
  intros Hquery Hblank. unfold Server.search.
  replace (truthy query) with true by (by destruct query). cbn [negb].
  rewrite generateEmbeddings_guard; [reflexivity|].
  apply ChunkingFacts.trim_blank. unfold ChunkingFacts.blank.
  induction Hblank as [|c text Hc _ IH]; [done|]. cbn. rewrite Hc.
  destruct text; [done|]. by apply IH.
Qed.

(** X22: when the provider answers every chunk of the query, the vector
    service is searched with [combined] of its answers (so with
    [undefined] when the query gives no chunk) and with the limit of the
    request or 5; when the search and the chat succeed, the answer is 200
    with the query as it was sent, the results as they were found, the
    text of the chat and the time after it. *)
Theorem search_answers (query : list N) (limit : option Z)
    (vs : list (list num)) (results : list result) (aiResponse : list N)
    (h : gmap positive (list num)) (p p1 p2 p3 : provider) :
  trim query <> [] ->
  answered create (splitTextIntoChunks query 8000) p vs p1 ->
  searchSimilar (combined vs) (default 5 limit) p1 = (inr results, p2) ->
  complete (responseRequest result resultContent query results) p2
  = (inr aiResponse, p3) ->
  search (Some query) limit h p
  = Some ({| status := 200;
             json := found query results aiResponse (toISOString p3) |}, p3).
Proof.
  intros Htrim Hanswered Hsearch Hchat. unfold Server.search.
  replace (truthy query) with true by (by destruct query). cbn [negb].
  destruct (generateEmbeddings_answered provider create query vs h p p1
              Htrim Hanswered) as (v & h1 & -> & ->).
  replace (match limit with Some limit0 => limit0 | None => 5 end)
    with (default 5 limit) by (by destruct limit).
  rewrite Hsearch. unfold generateResponse. by rewrite Hchat.
Qed.

(** X23: when the chat provider fails after the search has succeeded, the
    answer is 500 with the message of the provider behind the prefix
    ["Failed to generate AI response: "]. *)
Theorem search_chat_failure (query : list N) (limit : option Z)
    (vs : list (list num)) (results : list result) (message : list N)
    (h : gmap positive (list num)) (p p1 p2 p3 : provider) :
  trim query <> [] ->
  answered create (splitTextIntoChunks query 8000) p vs p1 ->
  searchSimilar (combined vs) (default 5 limit) p1 = (inr results, p2) ->
  complete (responseRequest result resultContent query results) p2
  = (inl message, p3) ->
  search (Some query) limit h p
  = Some (serverError (str "Search failed")
            (str "Failed to generate AI response: " ++ message), p3).
Proof.
  intros Htrim Hanswered Hsearch Hchat. unfold Server.search.
  replace (truthy query) with true by (by destruct query). cbn [negb].
  destruct (generateEmbeddings_answered provider create query vs h p p1
              Htrim Hanswered) as (v & h1 & -> & ->).
  replace (match limit with Some limit0 => limit0 | None => 5 end)
    with (default 5 limit) by (by destruct limit).
  rewrite Hsearch. unfold generateResponse. by rewrite Hchat.
Qed.

(** X24: a document whose extracted text is empty or all white space is
    answered with 500 and the message of [generateEmbeddings]; nothing is
    stored and the uploaded file is not removed: the world is left as
    [extractText] left it. *)
Theorem upload_blank_document (f : file) (text : list N)
    (h : gmap positive (list num)) (p p1 : provider) :
  extractText (path f) (mimetype f) p = (inr text, p1) ->
  Forall (fun c => isWhiteSpace c = true) text ->
  upload (Some f) h p
  = Some (serverError (str "Failed to process document")
            (str "Failed to generate embeddings: Text cannot be empty"), p1).
Proof.
  intros Hextract Hblank. unfold Server.upload. rewrite Hextract.
  rewrite generateEmbeddings_guard; [reflexivity|].
  apply ChunkingFacts.trim_blank. unfold ChunkingFacts.blank.
  clear Hextract. induction Hblank as [|c text Hc _ IH]; [done|].
  cbn. by rewrite Hc.
Qed.

(** X25: when the text is extracted and the provider answers every chunk
    of it, the document handed to the vector service holds the name of
    the file, the whole text, [combined] of the vectors and the time after
    the last embedding; when it is stored and the file removed, the answer
    is 200 with the length of the text in code units. *)
Theorem upload_stores (f : file) (text : list N) (vs : list (list num))
    (id : documentId) (u : unit)
    (h : gmap positive (list num)) (p p1 p2 p3 p4 : provider) :
  extractText (path f) (mimetype f) p = (inr text, p1) ->
  trim text <> [] ->
  answered create (splitTextIntoChunks text 8000) p1 vs p2 ->
  storeDocument
    {| filename := originalname f;
       content := text;
       embeddings := combined vs;
       docMetadata := {| uploadDate := toISOString p2;
                         fileSize := size f;
                         mimeType := mimetype f |} |} p2
  = (inr id, p3) ->
  unlinkSync (path f) p3 = (inr u, p4) ->
  upload (Some f) h p
  = Some ({| status := 200;
             json := uploaded id (originalname f) (length text)
                       (str "Document processed and indexed successfully") |},
          p4).
Proof.
  intros Hextract Htrim Hanswered Hstore Hunlink.
  unfold Server.upload. rewrite Hextract.
  destruct (generateEmbeddings_answered provider create text vs h p1 p2
              Htrim Hanswered) as (v & h2 & -> & ->).
  by rewrite Hstore, Hunlink.
Qed.


End Routes.

(** *** A world to run the routes in

    The state of the world is trivial.  The embedding provider answers
    every chunk with the same vector ([ServiceFacts.constantProvider]), the
    vector service finds nothing and stores every document under the same
    identifier, and the clock stands still. *)

Definition chatOk (r : request) (p : unit) : (list N + list N) * unit :=
  (inr (str "ok"), tt).

Definition chatDown (r : request) (p : unit) : (list N + list N) * unit :=
  (inl (str "429"), tt).

Definition extractHello (path mimetype : list N) (p : unit)
    : (list N + list N) * unit :=
  (inr (str "hello"), tt).

Definition extractBlank (path mimetype : list N) (p : unit)
    : (list N + list N) * unit :=
  (inr (str "  "), tt).

Definition storeFirst (d : document float) (p : unit)
    : (list N + nat) * unit :=
  (inr 1%nat, tt).

Definition noResults (v : option (list float)) (limit : Z) (p : unit)
    : (list N + list unit) * unit :=
  (inr [], tt).

Definition unlinkOk (path : list N) (p : unit) : (list N + unit) * unit :=
  (inr tt, tt).

Definition clock (p : unit) : list N := str "2024-01-01T00:00:00.000Z".

Definition report : file :=
  {| originalname := str "report.txt";
     path := str "uploads/document-1.txt";
     mimetype := str "text/plain";
     size := 5 |}.

Lemma hello_chunks : splitTextIntoChunks (str "hello") 8000 = [str "hello."].
Proof. vm_compute. reflexivity. Qed.

Lemma hello_answered :
  answered ServiceFacts.constantProvider
    (splitTextIntoChunks (str "hello") 8000) tt [[1%float; 2%float]] tt.
Proof. rewrite hello_chunks. repeat econstructor. Qed.

(** The answer to a query that is falsy. *)
Definition queryRequired : response nat unit :=
  rejected 400 (str "Search query is required").


(** The answer to the upload of [report] in this world. *)
Definition stored : response nat unit :=
  {| status := 200;
     json := uploaded 1%nat (str "report.txt") 5
               (str "Document processed and indexed successfully") |}.


Lemma search_blank_query_witness :
  Server.search unit ServiceFacts.constantProvider chatOk unit (fun _ => [])
    nat noResults clock (Some (str "  ")) None ∅ tt
  = Some (serverError (str "Search failed")
            (str "Failed to generate embeddings: Text cannot be empty"), tt).
Proof.
  apply (search_blank_query unit ServiceFacts.constantProvider chatOk unit
           (fun _ => []) nat noResults clock (str "  ")).
  - discriminate.
  - repeat constructor.
Defined.

Lemma search_answers_witness :
  Server.search unit ServiceFacts.constantProvider chatOk unit (fun _ => [])
    nat noResults clock (Some (str "hello")) None ∅ tt
  = Some ({| status := 200;
             json := found (str "hello") [] (str "ok") (clock tt) |}, tt).
Proof.
  apply (search_answers unit ServiceFacts.constantProvider chatOk unit
           (fun _ => []) nat noResults clock (str "hello") None
           [[1%float; 2%float]] [] (str "ok") ∅ tt tt tt tt).
  - discriminate.
  - exact hello_answered.
  - reflexivity.
  - reflexivity.
Defined.

Lemma search_chat_failure_witness :
  Server.search unit ServiceFacts.constantProvider chatDown unit
    (fun _ => []) nat noResults clock (Some (str "hello")) None ∅ tt
  = Some (serverError (str "Search failed")
            (str "Failed to generate AI response: " ++ str "429"), tt).
Proof.
  apply (search_chat_failure unit ServiceFacts.constantProvider chatDown unit
           (fun _ => []) nat noResults clock (str "hello") None
           [[1%float; 2%float]] [] (str "429") ∅ tt tt tt tt).
  - discriminate.
  - exact hello_answered.
  - reflexivity.
  - reflexivity.
Defined.

Lemma upload_blank_document_witness :
  Server.upload unit ServiceFacts.constantProvider unit nat extractBlank
    storeFirst unlinkOk clock (Some report) ∅ tt
  = Some (serverError (str "Failed to process document")
            (str "Failed to generate embeddings: Text cannot be empty"), tt).
Proof.
  apply (upload_blank_document unit ServiceFacts.constantProvider unit nat
           extractBlank storeFirst unlinkOk clock report (str "  ")).
  - reflexivity.
  - repeat constructor.
Defined.

Lemma upload_stores_witness :
  Server.upload unit ServiceFacts.constantProvider unit nat extractHello
    storeFirst unlinkOk clock (Some report) ∅ tt
  = Some ({| status := 200;
             json := uploaded 1%nat (str "report.txt") 5
                       (str "Document processed and indexed successfully") |},
          tt).
Proof.
  apply (upload_stores unit ServiceFacts.constantProvider unit nat
           extractHello storeFirst unlinkOk clock report (str "hello")
           [[1%float; 2%float]] 1%nat tt ∅ tt tt tt tt tt).
  - reflexivity.
  - discriminate.
  - exact hello_answered.
  - reflexivity.
  - reflexivity.
Defined.

End ServerFacts.

(** ** Adding knowledge in bulk *)

Module KnowledgeFacts.
Import JSString Chat Knowledge.

Section KnowledgeFacts.
Variable provider : Type.
Variable num json : Type.
Variable JSON_string : list N -> json.
Variable create : list N -> provider -> (list N + list num) * provider.
Variable uuidv4 : provider -> list N * provider.
Variable upsert :
  vector num json -> provider -> (list N + unit) * provider.
Variable toISOString : provider -> list N.

Local Abbreviation bulkLoop :=
  (Knowledge.bulkLoop provider num json JSON_string create uuidv4 upsert
     toISOString).
Local Abbreviation bulkAdd :=
  (Knowledge.bulkAdd provider num json JSON_string create uuidv4 upsert
     toISOString).

(** Each turn of the loop files its index under [results] or [errors]. *)
Lemma bulkLoop_indices (items : list (item json)) :
  forall i results errors p,
    let '(successful, failed, _) := bulkLoop items i results errors p in
    (fst <$> successful) ++ (fst <$> failed)
    ≡ₚ ((fst <$> results) ++ (fst <$> errors)) ++ seq i (length items).
Proof.
  induction items as [|item items IH]; intros i results errors p.
  - cbn. by rewrite app_nil_r.
  - cbn [Knowledge.bulkLoop length seq].
    assert (forall entry,
              ((fst <$> results) ++ (fst <$> errors ++ [(i, entry)]))
              ++ seq (S i) (length items)
              ≡ₚ ((fst <$> results) ++ (fst <$> errors))
                 ++ i :: seq (S i) (length items)) as Herror.
    { intros entry. rewrite fmap_app. cbn [fmap list_fmap fst].
      rewrite !app_assoc, <- (app_assoc _ [i]). done. }
    assert (forall entry,
              ((fst <$> results ++ [(i, entry)]) ++ (fst <$> errors))
              ++ seq (S i) (length items)
              ≡ₚ ((fst <$> results) ++ (fst <$> errors))
                 ++ i :: seq (S i) (length items)) as Hresult.
    { intros entry. rewrite fmap_app. cbn [fmap list_fmap fst].
      rewrite <- !app_assoc. apply Permutation_app_head.
      cbn [app]. by rewrite Permutation_middle. }
    destruct (text item) as [t|].
    + destruct (negb (truthy t) || (length (trim t) =? 0)%nat).
      * specialize (IH (S i) results
                      (errors ++ [(i, str "Text content is required")]) p).
        destruct (bulkLoop items (S i) results _ p) as [[successful failed] p'].
        by rewrite IH, Herror.
      * destruct (addKnowledge provider num json JSON_string create uuidv4
                    upsert toISOString t _ p) as [[message|id] p1].
        -- specialize (IH (S i) results (errors ++ [(i, message)]) p1).
           destruct (bulkLoop items (S i) results _ p1)
             as [[successful failed] p'].
           by rewrite IH, Herror.
        -- specialize (IH (S i) (results ++ [(i, id)]) errors p1).
           destruct (bulkLoop items (S i) _ errors p1)
             as [[successful failed] p'].
           by rewrite IH, Hresult.
    + specialize (IH (S i) results
                    (errors ++ [(i, str "Text content is required")]) p).
      destruct (bulkLoop items (S i) results _ p) as [[successful failed] p'].
      by rewrite IH, Herror.
Qed.

(** X30: for a non-empty array of items the bulk route answers 200 with a
    report in which every index of the array occurs exactly once, among
    the successful entries or among the failed ones; [success] is true
    exactly when no entry failed, and the total is the number of items,
    whatever the provider and the index do with each item. *)
Theorem bulkAdd_accounts (items : list (item json)) (p : provider) :
  items <> [] ->
  exists success message successful failed p',
    bulkAdd (Some items) p
    = (200,
       report success message successful failed (length items)
         (toISOString p'),
       p')
    /\ (fst <$> successful) ++ (fst <$> failed) ≡ₚ seq 0 (length items)
    /\ (length successful + length failed = length items)%nat
    /\ (success = true <-> failed = []).
Proof.
  intros Hitems. unfold Knowledge.bulkAdd.
  destruct items as [|item items]; [done|].
  pose proof (bulkLoop_indices (item :: items) 0 [] [] p) as Hindices.
  destruct (bulkLoop (item :: items) 0 [] [] p) as [[successful failed] p'].
  cbn [fmap list_fmap app] in Hindices.
  eexists _, _, successful, failed, p'. split_and!; [reflexivity|done| |].
  - apply Permutation_length in Hindices.
    by rewrite length_app, !length_fmap, length_seq in Hindices.
  - destruct failed; cbn; split; congruence.
Qed.

End KnowledgeFacts.

(** A world with an index that is out of service. *)
Definition embedOne (text : list N) (p : unit)
    : (list N + list float) * unit :=
  (inr [1%float], tt).

Definition nextId (p : unit) : list N * unit := (str "id", tt).

Definition indexDown (v : vector float unit) (p : unit)
    : (list N + unit) * unit :=
  (inl (str "503"), tt).

Lemma bulkAdd_accounts_witness :
  exists success message successful failed p',
    bulkAdd unit float unit (fun _ => tt) embedOne nextId indexDown
      (fun _ => str "now")
      (Some [ {| text := Some (str "a"); metadata := None |};
              {| text := None; metadata := None |} ]) tt
    = (200,
       report success message successful failed 2 (str "now"), p')
    /\ (fst <$> successful) ++ (fst <$> failed) ≡ₚ seq 0 2
    /\ (length successful + length failed = 2)%nat
    /\ (success = true <-> failed = []).
Proof.
  apply (bulkAdd_accounts unit float unit (fun _ => tt) embedOne nextId
           indexDown (fun _ => str "now")
           [ {| text := Some (str "a"); metadata := None |};
             {| text := None; metadata := None |} ] tt).
  discriminate.
Defined.

End KnowledgeFacts.
